(** * Block buffer (package blocksync) and RollDPoS context (package rolldpos2)

    A shallow embedding of
      - [blockBuffer.Flush], [blockBuffer.GetBlocksIntervalsToSync] and
        [blockBuffer.CommitHeight] (package blocksync), and
      - [rollDPoSCtx.calcEpochNumAndHeight], [rollDPoSCtx.getNumSubEpochs]
        and [rollDPoSCtx.rotatedProposer] (package rolldpos2),
    together with the properties of the specification that concern them.

    Conventions.  Go's [uint64] is a [Z] in [0, 2^64) and every arithmetic
    operation of the source is followed by its wrap-around ([u64]).  The
    target is a 64-bit one: [uint] is 64 bits wide and [int] is a signed
    64-bit integer ([int64]).  A Go map is a [gmap]; a nil pointer is [None].
    The collaborators behind Go interfaces (the blockchain, the action pool,
    the consensus scheme, the delegate pool) are type classes; the laws the
    proofs need from them are stated as separate classes in [Prop]. *)

From Stdlib Require Import ZArith List Lia Bool.
From stdpp Require Import base option list list_numbers sorting gmap fin_maps strings.

Local Open Scope Z_scope.

(** ** Machine integers *)

Definition u64 (z : Z) : Z := z mod 2 ^ 64.

Definition int64 (z : Z) : Z := (z + 2 ^ 63) mod 2 ^ 64 - 2 ^ 63.

Definition is_u64 (z : Z) : Prop := 0 ≤ z < 2 ^ 64.

(** ** Package blocksync *)

Module blocksync.

(** [bCheckinResult]: the constants start at [iota + 1]. *)
Inductive bCheckinResult : Set :=
  | bCheckinValid
  | bCheckinLower
  | bCheckinExisting
  | bCheckinHigher
  | bCheckinSkipNil.

Definition bCheckinResult_value (r : bCheckinResult) : Z :=
  match r with
  | bCheckinValid => 1
  | bCheckinLower => 2
  | bCheckinExisting => 3
  | bCheckinHigher => 4
  | bCheckinSkipNil => 5
  end.

(** A Go [error] value returned by a collaborator; only its being non-nil
    is observed by the buffer. *)
Inductive error : Set := mkError (code : nat).

(** [block.Block]: the buffer only calls [Height()]. *)
Class BlockLike (Block : Type) := Height : Block → Z.

(** The collaborators of the buffer.  [Chain] is the joint state of the
    blockchain, the action pool and the consensus scheme ([b.bc], [b.ap],
    [b.cs]), which the buffer reaches only through [bc.TipHeight()] and the
    package helper [commitBlock(bc, ap, cs, blk)].  [commitBlock] is not part
    of the sources at hand, so it is a parameter: it updates the collaborators
    and returns nil ([None]) or an error. *)
Class Blockchain (Chain Block : Type) := {
  TipHeight : Chain → Z;
  commitBlock : Chain → Block → Chain * option error
}.

(** Heights are [uint64] values. *)
Class U64Heights (Chain Block : Type)
    `{!BlockLike Block, !Blockchain Chain Block} : Prop := {
  Height_u64 : ∀ blk : Block, is_u64 (Height blk);
  TipHeight_u64 : ∀ c : Chain, is_u64 (TipHeight c)
}.

(** The contract of the chain on commit: a committed block becomes the tip,
    a refused one leaves the tip where it was. *)
Class ChainAdvances (Chain Block : Type)
    `{!BlockLike Block, !Blockchain Chain Block} : Prop := {
  commit_ok_tip : ∀ (c c' : Chain) (blk : Block),
    commitBlock c blk = (c', None) → TipHeight c' = Height blk;
  commit_err_tip : ∀ (c c' : Chain) (blk : Block) (e : error),
    commitBlock c blk = (c', Some e) → TipHeight c' = TipHeight c
}.

(** [len(b.blocks)] *)
Definition len {Block : Type} (m : gmap Z Block) : Z := Z.of_nat (base.size m).

(** [blockBuffer]; the mutex is left out (every operation below is one
    critical section), [bc] stands for [bc], [ap] and [cs] together. *)
Record blockBuffer (Block Chain : Type) : Type := mkBuffer {
  blocks : gmap Z Block;
  bc : Chain;
  size : Z;
  commitHeight : Z
}.
Arguments mkBuffer {Block Chain} _ _ _ _.
Arguments blocks {Block Chain} _.
Arguments bc {Block Chain} _.
Arguments size {Block Chain} _.
Arguments commitHeight {Block Chain} _.

(** [syncBlocksInterval] *)
Record syncBlocksInterval : Set := mkInterval { Start : Z; End : Z }.

(** One call of [commitBlock] made by the drain loop: the height of the loop
    and what the call returned. *)
Definition CommitEvent : Set := (Z * option error)%type.

Section Buffer.
Context {Block Chain : Type} `{!BlockLike Block, !Blockchain Chain Block}.

Definition set_blocks (m : gmap Z Block) (b : blockBuffer Block Chain) :=
  mkBuffer m (bc b) (size b) (commitHeight b).

(** [CommitHeight] *)
Definition CommitHeight (b : blockBuffer Block Chain) : Z := commitHeight b.

(** [bufSize] *)
Definition bufSize (b : blockBuffer Block Chain) : Z := size b.

(** The loop of [Flush] (lines 72-85), entered at the loop test with the
    current [heightToSync]; [limit] is [confirmedHeight+b.size].  It
    returns the buffer, the final [heightToSync] and the calls of
    [commitBlock] in the order they were made.  [fuel] bounds the number of
    iterations. *)
Fixpoint drain (fuel : nat) (limit heightToSync : Z)
    (b : blockBuffer Block Chain)
    : option (blockBuffer Block Chain * Z * list CommitEvent) :=
  match fuel with
  | O => None
  | S fuel' =>
    if heightToSync <=? limit then
      match blocks b !! heightToSync with
      | None => Some (b, heightToSync, [])
      | Some blk =>
        let m := delete heightToSync (blocks b) in
        match commitBlock (bc b) blk with
        | (bc', Some err) =>
          Some (mkBuffer m bc' (size b) (commitHeight b), heightToSync,
                [(heightToSync, Some err)])
        | (bc', None) =>
          match drain fuel' limit (u64 (heightToSync + 1))
                  (mkBuffer m bc' (size b) heightToSync) with
          | Some (b', h', evs) => Some (b', h', (heightToSync, None) :: evs)
          | None => None
          end
        end
      end
    else Some (b, heightToSync, [])
  end.

(** "clean up on memory leak" (lines 88-95) *)
Definition cleanup (confirmedHeight : Z) (b : blockBuffer Block Chain) :=
  if int64 (int64 (size b) * 2) <? len (blocks b) then
    set_blocks (filter (λ kv, ¬ (kv.1 ≤ confirmedHeight)) (blocks b)) b
  else b.

(** [Flush] from the insertion on (lines 66-97); [b] already holds the
    block. *)
Definition flushValid (fuel : nat) (confirmedHeight blkHeight : Z)
    (b : blockBuffer Block Chain)
    : option (blockBuffer Block Chain * (bool * bCheckinResult)
              * list CommitEvent) :=
  match drain fuel (u64 (confirmedHeight + size b))
          (u64 (confirmedHeight + 1)) b with
  | None => None
  | Some (b', heightToSync, evs) =>
    Some (cleanup confirmedHeight b',
          (blkHeight <? heightToSync, bCheckinValid), evs)
  end.

(** [Flush] with an explicit bound on the iterations of its loop. *)
Definition Flush_fuel (fuel : nat) (b : blockBuffer Block Chain)
    (blk : option Block)
    : option (blockBuffer Block Chain * (bool * bCheckinResult)
              * list CommitEvent) :=
  match blk with
  | None => Some (b, (false, bCheckinSkipNil), [])
  | Some blk =>
    let confirmedHeight := TipHeight (bc b) in
    let blkHeight := Height blk in
    if blkHeight <=? confirmedHeight then
      Some (b, (false, bCheckinLower), [])
    else if bool_decide (is_Some (blocks b !! blkHeight)) then
      Some (b, (false, bCheckinExisting), [])
    else if u64 (confirmedHeight + size b) <? blkHeight then
      Some (b, (false, bCheckinHigher), [])
    else
      flushValid fuel confirmedHeight blkHeight
        (set_blocks (<[blkHeight := blk]> (blocks b)) b)
  end.

(** [Flush]: every iteration of the loop that goes on deletes an entry of
    the map, so two more iterations than the map has entries are enough
    ([Flush_total] and [drain_fuel_more] below). *)
Definition Flush (b : blockBuffer Block Chain) (blk : option Block) :=
  Flush_fuel (S (S (base.size (blocks b)))) b blk.

(** The loop of [GetBlocksIntervalsToSync] (lines 120-132), entered at the
    loop test; it returns [start], [startSet] and [bi]. *)
Fixpoint scan (fuel : nat) (m : gmap Z Block) (targetHeight h start : Z)
    (startSet : bool) (bi : list syncBlocksInterval)
    : option (Z * bool * list syncBlocksInterval) :=
  match fuel with
  | O => None
  | S fuel' =>
    if h <=? targetHeight then
      match m !! h with
      | None =>
        if startSet
        then scan fuel' m targetHeight (u64 (h + 1)) start true bi
        else scan fuel' m targetHeight (u64 (h + 1)) h true bi
      | Some _ =>
        if startSet
        then scan fuel' m targetHeight (u64 (h + 1)) start false
               (bi ++ [mkInterval start (u64 (h - 1))])
        else scan fuel' m targetHeight (u64 (h + 1)) start false bi
      end
    else Some (start, startSet, bi)
  end.

(** [GetBlocksIntervalsToSync]; [None] when [fuel] iterations do not
    finish the loop. *)
Definition GetBlocksIntervalsToSync (fuel : nat)
    (b : blockBuffer Block Chain) (targetHeight : Z)
    : option (list syncBlocksInterval) :=
  let confirmedHeight := TipHeight (bc b) in
  if targetHeight <=? confirmedHeight then Some []
  else
    let targetHeight :=
      if u64 (confirmedHeight + size b) <? targetHeight
      then u64 (confirmedHeight + size b) else targetHeight in
    match scan fuel (blocks b) targetHeight (u64 (confirmedHeight + 1))
            0 false [] with
    | None => None
    | Some (start, startSet, bi) =>
      match blocks b !! targetHeight with
      | None =>
        let start := if startSet then start else targetHeight in
        Some (bi ++ [mkInterval start targetHeight])
      | Some _ => Some bi
      end
    end.

(** The loop of [Flush] as a relation: [drains limit h b b' h' evs] when
    the loop entered at [heightToSync = h] on [b] ends on [b'] with
    [heightToSync = h'] after the calls [evs]. *)
Inductive drains (limit : Z)
    : Z → blockBuffer Block Chain → blockBuffer Block Chain → Z
      → list CommitEvent → Prop :=
  | drains_stop h b :
      limit < h ∨ blocks b !! h = None →
      drains limit h b b h []
  | drains_fail h b blk bc' err :
      h ≤ limit →
      blocks b !! h = Some blk →
      commitBlock (bc b) blk = (bc', Some err) →
      drains limit h b
        (mkBuffer (delete h (blocks b)) bc' (size b) (commitHeight b))
        h [(h, Some err)]
  | drains_commit h b blk bc' b' h' evs :
      h ≤ limit →
      blocks b !! h = Some blk →
      commitBlock (bc b) blk = (bc', None) →
      drains limit (u64 (h + 1))
        (mkBuffer (delete h (blocks b)) bc' (size b) h) b' h' evs →
      drains limit h b b' h' ((h, None) :: evs).

(** Every pending block sits at its own height, and height 0 (which no
    block above a tip can have) is not a key. *)
Definition keys_ok (b : blockBuffer Block Chain) : Prop :=
  ∀ h blk, blocks b !! h = Some blk → Height blk = h ∧ 0 < h.

(** [keys_ok], and the commit height does not run ahead of the chain. *)
Definition buffer_ok (b : blockBuffer Block Chain) : Prop :=
  keys_ok b ∧ commitHeight b ≤ TipHeight (bc b).

(** The admission window: no pending height beyond tip + size. *)
Definition in_window (b : blockBuffer Block Chain) : Prop :=
  ∀ h, is_Some (blocks b !! h) → h ≤ TipHeight (bc b) + size b.

(** No pending height at or below the tip. *)
Definition above_tip (b : blockBuffer Block Chain) : Prop :=
  ∀ h, is_Some (blocks b !! h) → TipHeight (bc b) < h.

(** A sequence of [Flush] calls: the buffer after the last call, the
    results of the calls and all calls of [commitBlock], in order. *)
Fixpoint FlushAll (b : blockBuffer Block Chain) (blks : list (option Block))
    : option (blockBuffer Block Chain * list (bool * bCheckinResult)
              * list CommitEvent) :=
  match blks with
  | [] => Some (b, [], [])
  | blk :: rest =>
    match Flush b blk with
    | None => None
    | Some (b1, r, evs) =>
      match FlushAll b1 rest with
      | None => None
      | Some (b2, rs, evs') => Some (b2, r :: rs, evs ++ evs')
      end
    end
  end.

End Buffer.

(** [h] lies in one of the closed intervals of [bi]. *)
Definition covers (bi : list syncBlocksInterval) (h : Z) : Prop :=
  ∃ iv, iv ∈ bi ∧ Start iv ≤ h ≤ End iv.

(** The intervals are non-empty, ascending and pairwise disjoint: each one
    ends before every later one starts. *)
Definition ascending_disjoint (bi : list syncBlocksInterval) : Prop :=
  Forall (λ iv, Start iv ≤ End iv) bi
  ∧ StronglySorted (λ iv1 iv2, End iv1 < Start iv2) bi.

(** The state of the loop at its test, scanning from [c+1]: [front] is
    where the heights not yet accounted for in [bi] begin (the start of
    the open run, or [h] when none is open). *)
Definition scan_inv {Block : Type} (m : gmap Z Block) (c h start : Z)
    (startSet : bool) (bi : list syncBlocksInterval) : Prop :=
  let front := if startSet then start else h in
  c + 1 ≤ front ≤ h
  ∧ (startSet = true → start < h ∧ ∀ k, start ≤ k < h → m !! k = None)
  ∧ (startSet = false → c + 1 < h → is_Some (m !! (h - 1)))
  ∧ Forall (λ iv, c + 1 ≤ Start iv ∧ Start iv ≤ End iv ∧ End iv < front) bi
  ∧ StronglySorted (λ iv1 iv2, End iv1 < Start iv2) bi
  ∧ (∀ k, c + 1 ≤ k < front → (m !! k = None ↔ covers bi k)).

(** An interval is a maximal run of missing heights of [m] within
    [c+1, t]: the height before it and the height after it, where they are
    in that range, have an entry. *)
Definition maximal_run {Block : Type} (m : gmap Z Block) (c t : Z)
    (iv : syncBlocksInterval) : Prop :=
  (Start iv = c + 1 ∨ is_Some (m !! (Start iv - 1)))
  ∧ (End iv = t ∨ is_Some (m !! (End iv + 1))).

(** The heights of a list of [commitBlock] calls. *)
Definition event_heights (evs : list CommitEvent) : list Z := evs.*1.

(** The heights at which [commitBlock] succeeded, in the order of the
    calls. *)
Definition committed_heights (evs : list CommitEvent) : list Z :=
  omap (λ ev : CommitEvent,
          match ev.2 with
          | None => Some ev.1
          | Some _ => None
          end) evs.

(** [n] successful commits at [h], [h+1], ... *)
Definition ok_events (h n : Z) : list CommitEvent :=
  (λ k, (k, None)) <$> seqZ h n.

(** The call that ended a drain by failing, if one did. *)
Definition stop_event (h : Z) (stop : option error) : list CommitEvent :=
  match stop with
  | Some err => [(h, Some err)]
  | None => []
  end.

Definition stop_len (stop : option error) : Z :=
  match stop with
  | Some _ => 1
  | None => 0
  end.

(** In a list of [commitBlock] calls, no height that was committed is
    passed to [commitBlock] again later. *)
Fixpoint no_recommit (evs : list CommitEvent) : Prop :=
  match evs with
  | [] => True
  | (h, r) :: rest => (r = None → h ∉ event_heights rest) ∧ no_recommit rest
  end.

(** *** A chain to run the buffer on

    Blocks carry a height and a flag telling whether the chain accepts them;
    the chain accepts a block when it is the successor of its tip and is
    acceptable, and records what it committed. *)

Record SimBlock : Set := mkSimBlock { sb_height : Z; sb_good : bool }.

Record SimChain : Set := mkSimChain { sc_tip : Z; sc_committed : list Z }.

#[export] Instance SimBlock_like : BlockLike SimBlock := λ blk, u64 (sb_height blk).

#[export] Instance SimChain_chain : Blockchain SimChain SimBlock := {|
  TipHeight c := u64 (sc_tip c);
  commitBlock c blk :=
    if sb_good blk && (u64 (sb_height blk) =? u64 (sc_tip c) + 1)
    then (mkSimChain (sb_height blk) (sc_committed c ++ [sb_height blk]), None)
    else (c, Some (mkError 1))
|}.

Definition good (h : Z) : SimBlock := mkSimBlock h true.
Definition bad (h : Z) : SimBlock := mkSimBlock h false.

(** Window 5 on a chain whose tip is 10, nothing pending. *)
Definition buf10 : blockBuffer SimBlock SimChain :=
  mkBuffer ∅ (mkSimChain 10 []) 5 10.

(** [buf10] after block 12 arrived: 12 is pending behind the gap at 11. *)
Definition buf10_pending12 : blockBuffer SimBlock SimChain :=
  mkBuffer {[12 := good 12]} (mkSimChain 10 []) 5 10.

(** [buf10_pending12] after block 14 arrived as well. *)
Definition buf10_pending12_14 : blockBuffer SimBlock SimChain :=
  mkBuffer {[12 := good 12; 14 := good 14]} (mkSimChain 10 []) 5 10.

(** [buf10_pending12] after block 11 arrived: 11 and 12 are committed. *)
Definition buf12 : blockBuffer SimBlock SimChain :=
  mkBuffer ∅ (mkSimChain 12 [11; 12]) 5 12.

(** A window that ends at the largest [uint64]. *)
Definition buf_top : blockBuffer SimBlock SimChain :=
  mkBuffer ∅ (mkSimChain (2 ^ 64 - 6) []) 5 0.

(** [buf10] with an empty window. *)
Definition buf10_size0 : blockBuffer SimBlock SimChain :=
  mkBuffer ∅ (mkSimChain 10 []) 0 10.

End blocksync.

(** ** Package rolldpos2 *)

Module rolldpos2.

(** Go [error] values: [delegate.ErrZeroDelegate] and whatever else a
    collaborator may return. *)
Inductive error : Set :=
  | ErrZeroDelegate
  | ErrOther (code : nat).

(** A Go call either returns or panics (integer division by zero, index out
    of range). *)
Inductive outcome (A : Type) : Type :=
  | Returns (a : A)
  | Panics.
Arguments Returns {A} _.
Arguments Panics {A}.

(** [blockchain.Blockchain], as this package uses it:
    [TipHeight() (uint64, error)]. *)
Class Blockchain (Chain : Type) := TipHeight : Chain → Z * option error.

(** [delegate.Pool]: [NumDelegatesPerEpoch() (uint, error)] and
    [RollDelegates(uint64) ([]string, error)]. *)
Class Pool (P : Type) := {
  NumDelegatesPerEpoch : P → Z * option error;
  RollDelegates : P → Z → list string * option error
}.

(** [config.RollDPoS], the field read here. *)
Record RollDPoS : Set := mkRollDPoS { NumSubEpochs : Z }.

(** [epochCtx] *)
Record epochCtx : Set := mkEpochCtx {
  num : Z;
  height : Z;
  numSubEpochs : Z;
  delegates : list string
}.

(** [rollDPoSCtx]; [addr], [actPool], [p2p], [round] and [clock] are read by
    none of the functions below and are left out. *)
Record rollDPoSCtx (Chain P : Type) : Type := mkCtx {
  cfg : RollDPoS;
  chain : Chain;
  pool : P;
  epoch : epochCtx
}.
Arguments mkCtx {Chain P} _ _ _ _.
Arguments cfg {Chain P} _.
Arguments chain {Chain P} _.
Arguments pool {Chain P} _.
Arguments epoch {Chain P} _.

Section Ctx.
Context {Chain P : Type} `{!Blockchain Chain, !Pool P}.

(** [rollingDelegates] *)
Definition rollingDelegates (ctx : rollDPoSCtx Chain P) (epochNum : Z)
    : list string * option error :=
  RollDelegates (pool ctx) epochNum.

(** [getNumSubEpochs] *)
Definition getNumSubEpochs (ctx : rollDPoSCtx Chain P) : Z :=
  let num := 1 in
  if 0 <? NumSubEpochs (cfg ctx) then NumSubEpochs (cfg ctx) else num.

(** The divisor of [calcEpochNumAndHeight]:
    [uint64(numDlgs)*uint64(subEpochNum)]. *)
Definition epochLength (numDlgs subEpochNum : Z) : Z :=
  u64 (u64 numDlgs * u64 subEpochNum).

(** [calcEpochNumAndHeight] *)
Definition calcEpochNumAndHeight (ctx : rollDPoSCtx Chain P)
    : outcome (Z * Z * option error) :=
  match TipHeight (chain ctx) with
  | (_, Some err) => Returns (0, 0, Some err)
  | (height, None) =>
    match NumDelegatesPerEpoch (pool ctx) with
    | (_, Some err) => Returns (0, 0, Some err)
    | (numDlgs, None) =>
      let subEpochNum := getNumSubEpochs ctx in
      if epochLength numDlgs subEpochNum =? 0 then Panics
      else
        let epochNum :=
          u64 (height / epochLength numDlgs subEpochNum + 1) in
        let epochHeight :=
          u64 (u64 (epochLength numDlgs subEpochNum * u64 (epochNum - 1))
               + 1) in
        Returns (epochNum, epochHeight, None)
    end
  end.

(** [rotatedProposer] *)
Definition rotatedProposer (ctx : rollDPoSCtx Chain P)
    : outcome (string * Z * option error) :=
  match TipHeight (chain ctx) with
  | (_, Some err) => Returns (EmptyString, 0, Some err)
  | (height, None) =>
    let height := u64 (height + 1) in
    let numDelegates := Z.of_nat (length (delegates (epoch ctx))) in
    if numDelegates =? 0 then Returns (EmptyString, 0, Some ErrZeroDelegate)
    else
      match delegates (epoch ctx)
              !! Z.to_nat (height mod u64 numDelegates) with
      | Some d => Returns (d, height, None)
      | None => Panics
      end
  end.

End Ctx.

(** Collaborators that answer with fixed values: a chain is the result of
    its [TipHeight], a pool the result of its [NumDelegatesPerEpoch] and a
    delegate list. *)
#[export] Instance FixedChain : Blockchain (Z * option error) := λ c, c.

#[export] Instance FixedPool : Pool (Z * option error * list string) := {|
  NumDelegatesPerEpoch p := p.1;
  RollDelegates p _ := (p.2, None)
|}.

(** A context whose chain and delegate pool answer with the given results. *)
Definition answeringCtx (tip numDlgs : Z * option error)
    : rollDPoSCtx (Z * option error) (Z * option error * list string) :=
  mkCtx (mkRollDPoS 1) tip (numDlgs, []) (mkEpochCtx 0 0 1 []).

Definition fixedCtx (numSubEpochs tip numDlgs : Z) (dlgs : list string)
    : rollDPoSCtx (Z * option error) (Z * option error * list string) :=
  mkCtx (mkRollDPoS numSubEpochs) (tip, None) ((numDlgs, None), dlgs)
    (mkEpochCtx 0 0 numSubEpochs dlgs).

End rolldpos2.

(** ** Package rewarding *)

Module rewarding.

(** A Go [error] value of a collaborator. *)
Inductive error : Set := mkError (code : nat).

(** A Go call either returns or panics. *)
Inductive outcome (A : Type) : Type :=
  | Returns (a : A)
  | Panics.
Arguments Returns {A} _.
Arguments Panics {A}.

(** [protocol.RunActionsCtx], the fields read here; [GasPrice] is a
    [*big.Int], [Caller] stands for [Caller.String()].  Both are taken to be
    set: what [settleAction] does on a nil [GasPrice] or a nil [Caller] is
    not modelled, and no property of this package says when a call
    panics. *)
Record RunActionsCtx : Set := mkRunActionsCtx {
  GasPrice : Z;
  IntrinsicGas : Z;
  ActionHash : list Byte.byte;
  Caller : string;
  Nonce : Z
}.

(** [action.Receipt] *)
Record Receipt : Set := mkReceipt {
  ReturnValue : list Byte.byte;
  Status : Z;
  ActHash : list Byte.byte;
  GasConsumed : Z;
  ContractAddress : string;
  Logs : list string
}.

(** [Protocol]; [addr] stands for [addr.String()]. *)
Record Protocol : Set := mkProtocol {
  keyPrefix : list Byte.byte;
  addr : string
}.

(** [action.Action] as the type switch of [Handle] sees it: the four action
    types it names, with what it reads of them, and any other action. *)
Inductive Action : Set :=
  | SetReward (rewardType : Z) (amount : Z)
  | DepositToRewardingFund (amount : Z)
  | ClaimFromRewardingFund (amount : Z)
  | GrantReward (rewardType : Z)
  | OtherAction.

(** What the protocol calls and the sources at hand do not hold: the state
    manager [SM] is reached through the operations of the protocol defined
    in other files ([SetBlockReward], ..., [DepositGas]) and through
    [util.LoadOrCreateAccount] and [util.StoreAccount]; each takes the state
    and returns the state it leaves and its result.  [Account] is
    [state.Account], of which only [Nonce] is read and written.
    [BlockReward] and [EpochReward] are the constants of package action.
    [ctx] is the [context.Context]: the [RunActionsCtx] it carries, if
    any. *)
Class Env (SM Account : Type) := {
  BlockReward : Z;
  EpochReward : Z;
  SetBlockReward :
    option RunActionsCtx → SM → Z → SM * option error;
  SetEpochReward :
    option RunActionsCtx → SM → Z → SM * option error;
  Deposit : option RunActionsCtx → SM → Z → SM * option error;
  Claim : option RunActionsCtx → SM → Z → SM * option error;
  GrantBlockReward : option RunActionsCtx → SM → SM * option error;
  GrantEpochReward : option RunActionsCtx → SM → SM * option error;
  DepositGas : option RunActionsCtx → SM → Z → SM * option error;
  LoadOrCreateAccount : SM → string → SM * (Account + error);
  StoreAccount : SM → string → Account → SM * option error;
  acc_Nonce : Account → Z;
  acc_set_Nonce : Z → Account → Account
}.

(** [StoreAccount] keeps what it is given: a later load of the same address
    returns the account stored, and setting the nonce sets it. *)
Class AccountLaws (SM Account : Type) `{!Env SM Account} : Prop := {
  load_after_store : ∀ (sm sm' : SM) (a : string) (acc : Account),
    StoreAccount sm a acc = (sm', None) →
    ∃ sm'', LoadOrCreateAccount sm' a = (sm'', inl acc);
  Nonce_set : ∀ (z : Z) (acc : Account), acc_Nonce (acc_set_Nonce z acc) = z
}.

Section Protocol.
Context {SM Account : Type} `{!Env SM Account}.

(** [Validate] *)
Definition Validate (p : Protocol) (ctx : option RunActionsCtx)
    (act : Action) : option error := None.

(** [createReceipt] *)
Definition createReceipt (p : Protocol) (status : Z)
    (actHash : list Byte.byte) (gasConsumed : Z) : Receipt :=
  {| ReturnValue := [];
     Status := 0;
     ActHash := actHash;
     GasConsumed := gasConsumed;
     ContractAddress := addr p;
     Logs := [] |}.

(** [increaseNonce] *)
Definition increaseNonce (p : Protocol) (sm : SM) (a : string) (nonce : Z)
    : SM * option error :=
  match LoadOrCreateAccount sm a with
  | (sm, inr err) => (sm, Some err)
  | (sm, inl acc) =>
    let acc :=
      if acc_Nonce acc <? nonce then acc_set_Nonce nonce acc else acc in
    match StoreAccount sm a acc with
    | (sm, Some err) => (sm, Some err)
    | (sm, None) => (sm, None)
    end
  end.

(** [settleAction]; [MustGetRunActionsCtx] panics on a context without a
    [RunActionsCtx]. *)
Definition settleAction (p : Protocol) (ctx : option RunActionsCtx)
    (sm : SM) (status : Z) : outcome (SM * Receipt) :=
  match ctx with
  | None => Panics
  | Some raCtx =>
    let gasFee := GasPrice raCtx * IntrinsicGas raCtx in
    let sm :=
      match DepositGas ctx sm gasFee with
      | (sm, Some err) =>
        let _ := createReceipt p 1 (ActionHash raCtx) (IntrinsicGas raCtx) in
        sm
      | (sm, None) => sm
      end in
    match increaseNonce p sm (Caller raCtx) (Nonce raCtx) with
    | (sm, Some err) =>
      Returns (sm, createReceipt p 1 (ActionHash raCtx) (IntrinsicGas raCtx))
    | (sm, None) =>
      Returns (sm,
               createReceipt p status (ActionHash raCtx) (IntrinsicGas raCtx))
    end
  end.

(** The shape shared by the cases of [Handle]: run the operation, then
    [settleAction] with status 1 if it failed and 0 if not, and return the
    receipt with a nil error. *)
Definition settled (p : Protocol) (ctx : option RunActionsCtx)
    (r : SM * option error)
    : outcome (SM * option Receipt * option error) :=
  let status := match r.2 with Some _ => 1 | None => 0 end in
  match settleAction p ctx r.1 status with
  | Panics => Panics
  | Returns (sm, receipt) => Returns (sm, Some receipt, None)
  end.

(** [Handle] *)
Definition Handle (p : Protocol) (ctx : option RunActionsCtx) (act : Action)
    (sm : SM) : outcome (SM * option Receipt * option error) :=
  match act with
  | SetReward rewardType amount =>
    if rewardType =? BlockReward then
      settled p ctx (SetBlockReward ctx sm amount)
    else if rewardType =? EpochReward then
      settled p ctx (SetEpochReward ctx sm amount)
    else Returns (sm, None, None)
  | DepositToRewardingFund amount => settled p ctx (Deposit ctx sm amount)
  | ClaimFromRewardingFund amount => settled p ctx (Claim ctx sm amount)
  | GrantReward rewardType =>
    if rewardType =? BlockReward then
      settled p ctx (GrantBlockReward ctx sm)
    else if rewardType =? EpochReward then
      settled p ctx (GrantEpochReward ctx sm)
    else Returns (sm, None, None)
  | OtherAction => Returns (sm, None, None)
  end.

(** The actions for which a case of [Handle] returns a receipt. *)
Definition handled (act : Action) : Prop :=
  match act with
  | SetReward rewardType _ | GrantReward rewardType =>
    rewardType = BlockReward ∨ rewardType = EpochReward
  | DepositToRewardingFund _ | ClaimFromRewardingFund _ => True
  | OtherAction => False
  end.

End Protocol.

(** *** A state manager to run the protocol on

    Accounts are nonces kept in a map by address; every operation of the
    protocol succeeds on it except a claim, which fails, and a store under
    the empty address. *)
#[export] Instance MapEnv : Env (gmap string Z) Z := {|
  BlockReward := 0;
  EpochReward := 1;
  SetBlockReward _ sm _ := (sm, None);
  SetEpochReward _ sm _ := (sm, None);
  Deposit _ sm _ := (sm, None);
  Claim _ sm _ := (sm, Some (mkError 2));
  GrantBlockReward _ sm := (sm, None);
  GrantEpochReward _ sm := (sm, None);
  DepositGas _ sm _ := (sm, None);
  LoadOrCreateAccount sm a := (sm, inl (default 0 (sm !! a)));
  StoreAccount sm a acc :=
    if decide (a = EmptyString) then (sm, Some (mkError 3))
    else (<[a := acc]> sm, None);
  acc_Nonce acc := acc;
  acc_set_Nonce z _ := z
|}.

Definition protocol0 : Protocol := mkProtocol [] "io1rewarding".

Definition raCtx0 : RunActionsCtx :=
  mkRunActionsCtx 2 10000 [] "alice" 7.

End rewarding.


(** * Properties *)

Import blocksync.

(** ** Machine integers *)

Lemma u64_small z : is_u64 z → u64 z = z.
Proof. intros Hz. unfold u64. apply Z.mod_small. exact Hz. Qed.

Lemma u64_range z : is_u64 (u64 z).
Proof. unfold is_u64, u64. apply Z.mod_pos_bound. reflexivity. Qed.

Lemma u64_succ_max : u64 (2 ^ 64 - 1 + 1) = 0.
Proof. reflexivity. Qed.

(** ** The drain loop of [Flush] *)

Section drain_facts.
Context {Block Chain : Type} `{!BlockLike Block, !Blockchain Chain Block}.
Implicit Types (b : blockBuffer Block Chain) (evs : list CommitEvent).

(** Whatever the loop function returns, the relation derives. *)
Lemma drain_drains fuel limit h b b' h' evs :
  drain fuel limit h b = Some (b', h', evs) → drains limit h b b' h' evs.
Proof.
  revert h b b' h' evs.
  induction fuel as [|fuel IH]; intros h b b' h' evs; simpl; [discriminate|].
  destruct (Z.leb_spec h limit) as [Hle|Hgt].
  - destruct (blocks b !! h) as [blk|] eqn:Hblk.
    + destruct (commitBlock (bc b) blk) as [bc' [err|]] eqn:Hc.
      * intros [= <- <- <-]. by eapply drains_fail.
      * destruct (drain fuel limit (u64 (h + 1)) _)
          as [[[b1 h1] evs1]|] eqn:Hrec; [|discriminate].
        intros [= <- <- <-]. eapply drains_commit; eauto.
    + intros [= <- <- <-]. apply drains_stop. by right.
  - intros [= <- <- <-]. apply drains_stop. by left.
Qed.

(** The loop ends: every iteration that goes on has deleted an entry. *)
Lemma drain_total fuel limit h b :
  (base.size (blocks b) < fuel)%nat → is_Some (drain fuel limit h b).
Proof.
  revert h b.
  induction fuel as [|fuel IH]; intros h b Hfuel; simpl; [lia|].
  destruct (h <=? limit); [|by eexists].
  destruct (blocks b !! h) as [blk|] eqn:Hblk; [|by eexists].
  destruct (commitBlock (bc b) blk) as [bc' [err|]]; [by eexists|].
  destruct (IH (u64 (h + 1))
              (mkBuffer (delete h (blocks b)) bc' (size b) h))
    as [[[b1 h1] evs1] Hrec].
  - simpl. pose proof (map_size_delete h (blocks b)) as Hs.
    rewrite Hblk in Hs.
    destruct (decide (base.size (blocks b) = 0%nat)) as [Hz|Hnz].
    + apply map_size_empty_inv in Hz. rewrite Hz, lookup_empty in Hblk.
      discriminate.
    + lia.
  - rewrite Hrec. by eexists.
Qed.

(** More iterations allowed change nothing. *)
Lemma drain_fuel_more fuel fuel' limit h b r :
  (fuel ≤ fuel')%nat →
  drain fuel limit h b = Some r → drain fuel' limit h b = Some r.
Proof.
  revert fuel' h b r.
  induction fuel as [|fuel IH]; intros fuel' h b r Hle; simpl;
    [discriminate|].
  destruct fuel' as [|fuel']; [lia|]. simpl.
  destruct (h <=? limit); [|done].
  destruct (blocks b !! h) as [blk|]; [|done].
  destruct (commitBlock (bc b) blk) as [bc' [err|]]; [done|].
  destruct (drain fuel limit (u64 (h + 1)) _) as [r1|] eqn:Hrec;
    [|discriminate].
  rewrite (IH fuel' _ _ r1); [done|lia|done].
Qed.

(** [Flush] returns. *)
Lemma Flush_total b blk : is_Some (Flush b blk).
Proof.
  unfold Flush, Flush_fuel. destruct blk as [blk|]; [|by eexists].
  destruct (_ <=? _); [by eexists|].
  destruct (bool_decide _); [by eexists|].
  destruct (_ <? _); [by eexists|].
  unfold flushValid.
  destruct (drain_total (S (S (base.size (blocks b))))
              (u64 (TipHeight (bc b) + size
                 (set_blocks (<[Height blk:=blk]> (blocks b)) b)))
              (u64 (TipHeight (bc b) + 1))
              (set_blocks (<[Height blk:=blk]> (blocks b)) b))
    as [[[b1 h1] evs1] Hd].
  - simpl. pose proof (map_size_insert (Height blk) blk (blocks b)) as Hs.
    destruct (blocks b !! Height blk); simpl in Hs; lia.
  - rewrite Hd. by eexists.
Qed.

(** A sequence of [Flush] calls returns. *)
Lemma FlushAll_total blks b : is_Some (FlushAll b blks).
Proof.
  revert b. induction blks as [|blk blks IH]; intros b; simpl; [by eexists|].
  destruct (Flush_total b blk) as [[[b1 r] evs] ->].
  destruct (IH b1) as [[[b2 rs] evs'] ->]. by eexists.
Qed.

End drain_facts.

(** ** What one drain does, under the contract of the chain *)

Section drain_shape.
Context {Block Chain : Type} `{!BlockLike Block, !Blockchain Chain Block}.
Context `{!U64Heights Chain Block, !ChainAdvances Chain Block}.
Implicit Types (b : blockBuffer Block Chain) (evs : list CommitEvent).

Local Arguments ok_events : simpl never.
Local Arguments u64 : simpl never.

Lemma keys_ok_delete b h (c : Chain) s ch :
  keys_ok b → keys_ok (mkBuffer (delete h (blocks b)) c s ch).
Proof.
  intros Hk k blk. simpl. rewrite lookup_delete_Some. intros [_ Hl].
  by apply Hk.
Qed.

Lemma ok_events_cons h n :
  0 < n → ok_events h n = (h, None) :: ok_events (h + 1) (n - 1).
Proof.
  intros Hn. unfold ok_events. rewrite seqZ_cons by done.
  by rewrite fmap_cons, <-Z.add_1_r, <-Z.sub_1_r.
Qed.

Lemma ok_events_nil h n : n ≤ 0 → ok_events h n = [].
Proof. intros Hn. unfold ok_events. by rewrite seqZ_nil. Qed.

(** A drain entered at [h] commits [n] consecutive heights [h], ...,
    [h+n-1] and then stops: at a gap or the limit ([stop = None]) or at a
    refused commit of height [h+n] ([stop = Some err]).  The heights it
    touched are gone from the map, the others are as before. *)
Lemma drains_shape limit h b b' h' evs :
  drains limit h b b' h' evs →
  is_u64 h → limit < 2 ^ 64 → keys_ok b →
  ∃ n stop,
    0 ≤ n
    ∧ evs = ok_events h n ++ stop_event (h + n) stop
    ∧ (0 < n + stop_len stop →
         h + n + stop_len stop - 1 ≤ limit ∧ is_Some (blocks b !! h))
    ∧ size b' = size b
    ∧ commitHeight b' = (if 0 <? n then h + n - 1 else commitHeight b)
    ∧ TipHeight (bc b') = (if 0 <? n then h + n - 1 else TipHeight (bc b))
    ∧ (∀ k, blocks b' !! k =
            if bool_decide (h ≤ k < h + n + stop_len stop) then None
            else blocks b !! k)
    ∧ h' = match stop with Some _ => h + n | None => u64 (h + n) end.
Proof.
  intros Hd. induction Hd as
    [h b Hstop
    |h b blk bc' err Hle Hblk Hc
    |h b blk bc' b' h' evs Hle Hblk Hc Hd IH]; intros Hh Hlim Hk.
  - exists 0, None. simpl.
    repeat split; try done; try lia.
    + intros k. rewrite bool_decide_eq_false_2 by lia. done.
    + rewrite Z.add_0_r. by rewrite u64_small.
  - exists 0, (Some err). simpl.
    rewrite Z.add_0_r. repeat split; try done; try lia.
    + by eapply commit_err_tip.
    + intros k. rewrite lookup_delete. destruct (decide (h = k)) as [->|Hne].
      * by rewrite bool_decide_eq_true_2 by lia.
      * by rewrite bool_decide_eq_false_2 by lia.
  - pose proof (Hk h blk Hblk) as [Hhb Hpos].
    pose proof (commit_ok_tip _ _ _ Hc) as Htip.
    assert (keys_ok (mkBuffer (delete h (blocks b)) bc' (size b) h)) as Hk1
      by by apply keys_ok_delete.
    destruct (decide (h + 1 < 2 ^ 64)) as [Hnowrap|Hwrap].
    + rewrite (u64_small (h + 1)) in * by (unfold is_u64 in *; lia).
      destruct IH as (n & stop & Hn & Hevs & Hbound & Hsz & Hch & Ht & Hm & Hh');
        [unfold is_u64 in *; lia|done|done|].
      simpl in *.
      exists (n + 1), stop. repeat split.
      * lia.
      * rewrite (ok_events_cons h (n + 1)) by lia.
        rewrite Hevs.
        replace (n + 1 - 1) with n by lia.
        replace (h + (n + 1)) with (h + 1 + n) by lia. done.
      * destruct (decide (0 < n + stop_len stop)) as [Hp|Hnp].
        -- destruct (Hbound Hp). lia.
        -- destruct stop; simpl in *; lia.
      * by eexists.
      * done.
      * rewrite Hch. destruct (Z.ltb_spec 0 n), (Z.ltb_spec 0 (n + 1)); lia.
      * rewrite Ht, Htip. destruct (Z.ltb_spec 0 n), (Z.ltb_spec 0 (n + 1)); lia.
      * intros k. rewrite Hm, lookup_delete.
        assert (0 ≤ stop_len stop) by (destruct stop; simpl; lia).
        repeat case_bool_decide; try case_decide; first [done|lia].
      * rewrite Hh'. by replace (h + (n + 1)) with (h + 1 + n) by lia.
    + assert (h + 1 = 2 ^ 64) as Hmax by (unfold is_u64 in *; lia).
      assert (u64 (h + 1) = 0) as Hz by (rewrite Hmax; reflexivity).
      rewrite Hz in Hd.
      assert (blocks (mkBuffer (delete h (blocks b)) bc' (size b) h) !! 0
              = None) as Hnone.
      { destruct (_ !! 0) as [blk0|] eqn:H0; [|done].
        destruct (Hk1 0 blk0 H0). lia. }
      inversion Hd; subst; try congruence.
      exists 1, None. simpl. repeat split; try done; try lia.
      intros k. rewrite lookup_delete.
      repeat case_bool_decide; try case_decide; first [done|lia].
Qed.

End drain_shape.

(** ** One call of [Flush] *)

Section flush_facts.
Context {Block Chain : Type} `{!BlockLike Block, !Blockchain Chain Block}.
Implicit Types (b : blockBuffer Block Chain) (evs : list CommitEvent).

Lemma cleanup_fields c b :
  bc (cleanup c b) = bc b ∧ size (cleanup c b) = size b
  ∧ commitHeight (cleanup c b) = commitHeight b.
Proof. unfold cleanup. by destruct (_ <? _). Qed.

(** The clean-up only drops entries at or below the height it is given. *)
Lemma cleanup_lookup_above c b k :
  c < k → blocks (cleanup c b) !! k = blocks b !! k.
Proof.
  intros Hck. unfold cleanup. destruct (_ <? _); [|done]. simpl.
  destruct (blocks b !! k) as [x|] eqn:Hx.
  - apply map_lookup_filter_Some. split; [done|]. simpl. lia.
  - apply map_lookup_filter_None. left. done.
Qed.

Lemma cleanup_lookup_Some c b k x :
  blocks (cleanup c b) !! k = Some x → blocks b !! k = Some x.
Proof.
  unfold cleanup. destruct (_ <? _); [|done]. simpl.
  rewrite map_lookup_filter_Some. by intros [? _].
Qed.

(** A call that is not [bCheckinValid] changes nothing and commits
    nothing; a [bCheckinValid] one passed the three checks, inserted the
    block, ran the loop and the clean-up. *)
Lemma Flush_inv b blk b' r evs :
  Flush b blk = Some (b', r, evs) →
  (r.2 ≠ bCheckinValid ∧ r.1 = false ∧ b' = b ∧ evs = [])
  ∨ (∃ x bd hts,
       blk = Some x
       ∧ TipHeight (bc b) < Height x
       ∧ blocks b !! Height x = None
       ∧ Height x ≤ u64 (TipHeight (bc b) + size b)
       ∧ drains (u64 (TipHeight (bc b) + size b)) (u64 (TipHeight (bc b) + 1))
           (set_blocks (<[Height x := x]> (blocks b)) b) bd hts evs
       ∧ b' = cleanup (TipHeight (bc b)) bd
       ∧ r = (Height x <? hts, bCheckinValid)).
Proof.
  unfold Flush, Flush_fuel. destruct blk as [x|].
  2:{ intros [= <- <- <-]. by left. }
  destruct (Z.leb_spec (Height x) (TipHeight (bc b))) as [Hlow|Hlow].
  { intros [= <- <- <-]. by left. }
  case_bool_decide as Hex.
  { intros [= <- <- <-]. by left. }
  destruct (Z.ltb_spec (u64 (TipHeight (bc b) + size b)) (Height x))
    as [Hhigh|Hhigh].
  { intros [= <- <- <-]. by left. }
  unfold flushValid.
  destruct (drain _ _ _ _) as [[[bd hts] evs1]|] eqn:Hd; [|discriminate].
  intros [= <- <- <-]. right. exists x, bd, hts.
  apply drain_drains in Hd. simpl in Hd.
  split_and!; try done.
  by apply eq_None_not_Some.
Qed.

End flush_facts.

Section flush_shape.
Context {Block Chain : Type} `{!BlockLike Block, !Blockchain Chain Block}.
Context `{!U64Heights Chain Block, !ChainAdvances Chain Block}.
Implicit Types (b : blockBuffer Block Chain) (evs : list CommitEvent).

Local Arguments ok_events : simpl never.
Local Arguments u64 : simpl never.

(** What a [bCheckinValid] call does, with [c] the tip it read: it commits
    [c+1], ..., [c+n] and possibly fails at [c+n+1]. *)
Lemma Flush_Valid_shape b x b' r evs :
  keys_ok b →
  Flush b (Some x) = Some (b', (r, bCheckinValid), evs) →
  let c := TipHeight (bc b) in
  c < Height x
  ∧ blocks b !! Height x = None
  ∧ Height x ≤ u64 (c + size b)
  ∧ ∃ n stop,
      0 ≤ n
      ∧ evs = ok_events (c + 1) n ++ stop_event (c + 1 + n) stop
      ∧ size b' = size b
      ∧ commitHeight b' = (if 0 <? n then c + n else commitHeight b)
      ∧ TipHeight (bc b') = c + n
      ∧ (∀ k, c < k →
           blocks b' !! k =
           if bool_decide (k < c + 1 + n + stop_len stop) then None
           else <[Height x := x]> (blocks b) !! k)
      ∧ (∀ k y, blocks b' !! k = Some y →
           <[Height x := x]> (blocks b) !! k = Some y
           ∧ ¬ (c + 1 ≤ k < c + 1 + n + stop_len stop)).
Proof.
  intros Hk HF c.
  destruct (Flush_inv _ _ _ _ _ HF) as [(Hne & _)|Hv]; [done|].
  destruct Hv as (x' & bd & hts & [= <-] & Hlow & Hnone & Hhigh & Hd & -> & _).
  fold c in Hlow, Hhigh, Hd |- *.
  pose proof (TipHeight_u64 (bc b)) as Hc. fold c in Hc.
  pose proof (Height_u64 x) as Hx.
  assert (is_u64 (c + 1)) as Hc1 by (unfold is_u64 in *; lia).
  rewrite (u64_small (c + 1)) in Hd by done.
  apply drains_shape in Hd; [|done|apply u64_range|].
  2:{ intros k y. simpl. rewrite lookup_insert_Some.
      intros [[<- <-]|[_ Hl]]; [split; [done|unfold is_u64 in *; lia]|].
      by apply Hk. }
  destruct Hd as (n & stop & Hn & Hevs & Hbound & Hsz & Hch & Ht & Hm & _).
  simpl in *. fold c in Ht.
  destruct (cleanup_fields c bd) as (Hbc & Hsize & Hcommit).
  split_and!; try done.
  exists n, stop. split_and!; try done.
  - congruence.
  - rewrite Hcommit, Hch. destruct (0 <? n); [lia|done].
  - rewrite Hbc, Ht. destruct (Z.ltb_spec 0 n); lia.
  - intros k Hck. rewrite cleanup_lookup_above by done. rewrite Hm.
    assert (0 ≤ stop_len stop) by (destruct stop; simpl; lia).
    repeat case_bool_decide; first [done|lia].
  - intros k y Hy. apply cleanup_lookup_Some in Hy. rewrite Hm in Hy.
    case_bool_decide; [done|]. split; [done|lia].
Qed.

End flush_shape.

(** ** Commit failures *)

Section commit_failure.
Context {Block Chain : Type} `{!BlockLike Block, !Blockchain Chain Block}.
Context `{!U64Heights Chain Block, !ChainAdvances Chain Block}.
Implicit Types (b : blockBuffer Block Chain) (evs : list CommitEvent).

Lemma elem_of_ok_events h n k (r : option error) :
  (k, r) ∈ ok_events h n ↔ r = None ∧ h ≤ k < h + n.
Proof.
  unfold ok_events. rewrite list_elem_of_fmap. setoid_rewrite elem_of_seqZ.
  split.
  - intros (k' & [= -> ->] & Hk). done.
  - intros [-> Hk]. by exists k.
Qed.

(** C1, as the code has it.  When [commitBlock] fails at height [h] during
    a [Flush] that read tip [c]: the heights [c+1], ..., [h-1] were
    committed in order before it and the failing call is the last one of
    the drain; [commitHeight] is the last height committed ([h-1]), or
    unchanged when [h] was the first height tried; the chain tip is [h-1],
    so the next expected height is still [h]; the block at [h] has been
    deleted from [pending] (the loop deletes before it commits) and the
    entries above [h] are all still there. *)
Theorem Flush_commit_failure b blk b' r evs h err :
  keys_ok b →
  Flush b (Some blk) = Some (b', r, evs) →
  (h, Some err) ∈ evs →
  let c := TipHeight (bc b) in
  c < h
  ∧ evs = ok_events (c + 1) (h - c - 1) ++ [(h, Some err)]
  ∧ CommitHeight b' = (if c + 1 <? h then h - 1 else CommitHeight b)
  ∧ TipHeight (bc b') = h - 1
  ∧ blocks b' !! h = None
  ∧ (∀ k, h < k → blocks b' !! k = <[Height blk := blk]> (blocks b) !! k).
Proof.
  intros Hk HF Hin c.
  destruct (Flush_inv _ _ _ _ _ HF) as [(_ & _ & _ & ->)|Hv].
  { by apply elem_of_nil in Hin. }
  destruct Hv as (x & bd & hts & [= <-] & _ & _ & _ & _ & _ & ->).
  destruct (Flush_Valid_shape _ _ _ _ _ Hk HF)
    as (Hlow & _ & _ & n & stop & Hn & Hevs & _ & Hch & Ht & Hm & _).
  fold c in Hlow, Hevs, Hch, Ht, Hm.
  rewrite Hevs in Hin. apply elem_of_app in Hin as [Hin|Hin].
  { apply elem_of_ok_events in Hin as [[=] _]. }
  destruct stop as [e|]; simpl in Hin; [|by apply elem_of_nil in Hin].
  apply list_elem_of_singleton in Hin as [= -> ->]. simpl in *.
  replace (c + 1 + n - c - 1) with n by lia.
  unfold CommitHeight. split_and!; try done; try lia.
  - rewrite Hch.
    destruct (Z.ltb_spec 0 n), (Z.ltb_spec (c + 1) (c + 1 + n)); lia.
  - rewrite Hm by lia. by rewrite bool_decide_eq_true_2 by lia.
  - intros k Hlt. rewrite Hm by lia. by rewrite bool_decide_eq_false_2 by lia.
Qed.

End commit_failure.

(** ** Lists of [commitBlock] calls *)

Section events.
Implicit Types (evs : list CommitEvent).

Lemma event_heights_app evs1 evs2 :
  event_heights (evs1 ++ evs2) = event_heights evs1 ++ event_heights evs2.
Proof. unfold event_heights. apply fmap_app. Qed.

Lemma elem_of_event_heights h evs :
  h ∈ event_heights evs ↔ ∃ r, (h, r) ∈ evs.
Proof.
  unfold event_heights. rewrite list_elem_of_fmap. split.
  - intros ([h' r] & -> & Hin). by exists r.
  - intros [r Hin]. by exists (h, r).
Qed.

Lemma event_heights_shape h n stop :
  0 ≤ n →
  event_heights (ok_events h n ++ stop_event (h + n) stop)
  = seqZ h (n + stop_len stop).
Proof.
  intros Hn. rewrite event_heights_app.
  assert (event_heights (ok_events h n) = seqZ h n) as ->.
  { unfold event_heights, ok_events. rewrite <-list_fmap_compose.
    rewrite <-(list_fmap_id (seqZ h n)) at 2. by apply list_fmap_ext. }
  destruct stop as [e|]; simpl.
  - by rewrite seqZ_app by lia.
  - by rewrite app_nil_r, Z.add_0_r.
Qed.

Lemma no_recommit_app evs1 evs2 :
  no_recommit evs1 → no_recommit evs2 →
  (∀ h, (h, None) ∈ evs1 → h ∉ event_heights evs2) →
  no_recommit (evs1 ++ evs2).
Proof.
  induction evs1 as [|[h r] evs1 IH]; simpl; [done|].
  intros [Hh H1] H2 Hsep. split.
  - intros ->. rewrite event_heights_app, elem_of_app.
    intros [Hin|Hin]; [by apply Hh|].
    by apply (Hsep h); [left|].
  - apply IH; [done|done|]. intros k Hk. apply Hsep. by right.
Qed.

Lemma NoDup_no_recommit evs : NoDup (event_heights evs) → no_recommit evs.
Proof.
  induction evs as [|[h r] evs IH]; simpl; [done|].
  intros [Hnin Hnd]%NoDup_cons. split; [done|]. by apply IH.
Qed.

Lemma no_recommit_split evs1 h evs2 :
  no_recommit (evs1 ++ (h, None) :: evs2) → h ∉ event_heights evs2.
Proof.
  induction evs1 as [|[k r] evs1 IH]; simpl.
  - intros [Hh _]. by apply Hh.
  - intros [_ Hrest]. by apply IH.
Qed.

Lemma no_recommit_NoDup evs :
  no_recommit evs → (∀ ev, ev ∈ evs → ev.2 = None) →
  NoDup (event_heights evs).
Proof.
  induction evs as [|[h r] evs IH]; simpl; [constructor|].
  intros [Hh Hrest] Hall. apply NoDup_cons. split.
  - apply Hh. apply (Hall (h, r)). by left.
  - apply IH; [done|]. intros ev Hev. apply Hall. by right.
Qed.

End events.

(** ** Sequences of [Flush] calls *)

Section flush_sequences.
Context {Block Chain : Type} `{!BlockLike Block, !Blockchain Chain Block}.
Context `{!U64Heights Chain Block, !ChainAdvances Chain Block}.
Implicit Types (b : blockBuffer Block Chain) (evs : list CommitEvent).

(** One call: the map stays well-keyed, the tip does not go back, every
    height passed to [commitBlock] is above the tip the call read, every
    height committed is at or below the tip the call leaves, and no height
    is passed twice. *)
Lemma Flush_step b blk b' r evs :
  keys_ok b →
  Flush b blk = Some (b', r, evs) →
  keys_ok b'
  ∧ TipHeight (bc b) ≤ TipHeight (bc b')
  ∧ (∀ h o, (h, o) ∈ evs → TipHeight (bc b) < h)
  ∧ (∀ h, (h, None) ∈ evs → h ≤ TipHeight (bc b'))
  ∧ NoDup (event_heights evs).
Proof.
  intros Hk HF.
  destruct (Flush_inv _ _ _ _ _ HF) as [(_ & _ & -> & ->)|Hv].
  { split_and!; try done.
    - intros h o Hin. by apply elem_of_nil in Hin.
    - intros h Hin. by apply elem_of_nil in Hin.
    - constructor. }
  destruct Hv as (x & bd & hts & -> & _ & _ & _ & _ & _ & ->).
  destruct (Flush_Valid_shape _ _ _ _ _ Hk HF)
    as (Hlow & _ & _ & n & stop & Hn & Hevs & _ & _ & Ht & _ & Hm).
  pose proof (TipHeight_u64 (bc b)) as Hc.
  split_and!.
  - intros k y Hy. apply Hm in Hy as [Hy _].
    apply lookup_insert_Some in Hy as [[<- <-]|[_ Hy]]; [|by apply Hk].
    split; [done|unfold is_u64 in *; lia].
  - lia.
  - intros h o Hin.
    assert (h ∈ event_heights evs) as Hh
      by (apply elem_of_event_heights; by exists o).
    rewrite Hevs, event_heights_shape in Hh by done.
    apply elem_of_seqZ in Hh. lia.
  - intros h Hin. rewrite Hevs in Hin.
    apply elem_of_app in Hin as [Hin|Hin].
    + apply elem_of_ok_events in Hin. lia.
    + destruct stop; simpl in Hin.
      * by apply list_elem_of_singleton in Hin.
      * by apply elem_of_nil in Hin.
  - rewrite Hevs, event_heights_shape by done. apply NoDup_seqZ.
Qed.

(** One call never lowers [commitHeight], and keeps it at or below the
    tip. *)
Lemma Flush_step_commitHeight b blk b' r evs :
  buffer_ok b →
  Flush b blk = Some (b', r, evs) →
  buffer_ok b' ∧ commitHeight b ≤ commitHeight b'.
Proof.
  intros [Hk Hlag] HF.
  destruct (Flush_step _ _ _ _ _ Hk HF) as (Hk' & _).
  destruct (Flush_inv _ _ _ _ _ HF) as [(_ & _ & -> & ->)|Hv]; [done|].
  destruct Hv as (x & bd & hts & -> & _ & _ & _ & _ & _ & ->).
  destruct (Flush_Valid_shape _ _ _ _ _ Hk HF)
    as (_ & _ & _ & n & stop & Hn & _ & _ & Hch & Ht & _).
  unfold buffer_ok. rewrite Hch, Ht.
  destruct (Z.ltb_spec 0 n); split_and!; first [done|lia].
Qed.

Lemma FlushAll_steps blks b b' rs evs :
  keys_ok b →
  FlushAll b blks = Some (b', rs, evs) →
  keys_ok b'
  ∧ TipHeight (bc b) ≤ TipHeight (bc b')
  ∧ (∀ h o, (h, o) ∈ evs → TipHeight (bc b) < h)
  ∧ (∀ h, (h, None) ∈ evs → h ≤ TipHeight (bc b'))
  ∧ no_recommit evs.
Proof.
  revert b b' rs evs.
  induction blks as [|blk blks IH]; intros b b' rs evs Hk; simpl.
  { intros [= <- <- <-]. split_and!; try done.
    - intros h o Hin. by apply elem_of_nil in Hin.
    - intros h Hin. by apply elem_of_nil in Hin. }
  destruct (Flush b blk) as [[[b1 r] evs1]|] eqn:HF; [|discriminate].
  destruct (FlushAll b1 blks) as [[[b2 rs2] evs2]|] eqn:HA; [|discriminate].
  intros [= <- <- <-].
  destruct (Flush_step _ _ _ _ _ Hk HF) as (Hk1 & Ht1 & Habove1 & Hbelow1 & Hnd).
  destruct (IH _ _ _ _ Hk1 HA) as (Hk2 & Ht2 & Habove2 & Hbelow2 & Hnr).
  split_and!.
  - done.
  - lia.
  - intros h o [Hin|Hin]%elem_of_app.
    + by eapply Habove1.
    + apply Habove2 in Hin. lia.
  - intros h [Hin|Hin]%elem_of_app.
    + apply Hbelow1 in Hin. lia.
    + by apply Hbelow2.
  - apply no_recommit_app; [by apply NoDup_no_recommit|done|].
    intros h Hin [o Ho]%elem_of_event_heights.
    apply Hbelow1 in Hin. apply Habove2 in Ho. lia.
Qed.

Lemma FlushAll_commitHeight blks b b' rs evs :
  buffer_ok b →
  FlushAll b blks = Some (b', rs, evs) →
  buffer_ok b' ∧ commitHeight b ≤ commitHeight b'.
Proof.
  revert b b' rs evs.
  induction blks as [|blk blks IH]; intros b b' rs evs Hok; simpl.
  { by intros [= <- <- <-]. }
  destruct (Flush b blk) as [[[b1 r] evs1]|] eqn:HF; [|discriminate].
  destruct (FlushAll b1 blks) as [[[b2 rs2] evs2]|] eqn:HA; [|discriminate].
  intros [= <- <- <-].
  destruct (Flush_step_commitHeight _ _ _ _ _ Hok HF) as [Hok1 Hle1].
  destruct (IH _ _ _ _ Hok1 HA) as [Hok2 Hle2].
  split; [done|lia].
Qed.

(** The window invariant is kept by every call: what is pending stays
    within tip + size. *)
Lemma Flush_in_window b blk b' r evs :
  keys_ok b → 0 ≤ size b → in_window b →
  Flush b blk = Some (b', r, evs) →
  in_window b'.
Proof.
  intros Hk Hsz Hwin HF.
  destruct (Flush_inv _ _ _ _ _ HF) as [(_ & _ & -> & ->)|Hv]; [done|].
  destruct Hv as (x & bd & hts & -> & _ & _ & _ & _ & _ & ->).
  destruct (Flush_Valid_shape _ _ _ _ _ Hk HF)
    as (Hlow & _ & Hhigh & n & stop & Hn & _ & Hsize & _ & Ht & _ & Hm).
  pose proof (TipHeight_u64 (bc b)) as Hc.
  assert (u64 (TipHeight (bc b) + size b) ≤ TipHeight (bc b) + size b)
    as Hmod by (apply Z.mod_le; unfold is_u64 in *; lia).
  intros k [y Hy]. rewrite Ht, Hsize.
  apply Hm in Hy as [Hy _].
  apply lookup_insert_Some in Hy as [[<- <-]|[_ Hy]]; [lia|].
  assert (k ≤ TipHeight (bc b) + size b) by (apply Hwin; by eexists). lia.
Qed.

(** C2, as the code has it.  In every sequence of [Flush] calls, once
    [commitBlock] has succeeded at a height, that height is never passed to
    [commitBlock] again; hence, when no commit fails, every height is
    passed at most once.  (A height whose commit failed can be passed
    again, when a block for it is flushed again.) *)
Theorem commit_once_after_success b blks b' rs evs :
  keys_ok b →
  FlushAll b blks = Some (b', rs, evs) →
  (∀ evs1 h evs2, evs = evs1 ++ (h, None) :: evs2 → h ∉ event_heights evs2)
  ∧ ((∀ ev, ev ∈ evs → ev.2 = None) → NoDup (event_heights evs)).
Proof.
  intros Hk HA.
  destruct (FlushAll_steps _ _ _ _ _ Hk HA) as (_ & _ & _ & _ & Hnr).
  split.
  - intros evs1 h evs2 ->. by eapply no_recommit_split.
  - intros Hall. by apply no_recommit_NoDup.
Qed.

(** C5.  [commitHeight] is non-decreasing along every sequence of [Flush]
    calls: between any two points of a run that starts from a buffer whose
    commit height does not exceed the chain tip, it has not decreased,
    whatever blocks are flushed and whatever [commitBlock] returns. *)
Theorem CommitHeight_monotone b blks1 blks2 b1 rs1 evs1 b2 rs2 evs2 :
  buffer_ok b →
  FlushAll b blks1 = Some (b1, rs1, evs1) →
  FlushAll b1 blks2 = Some (b2, rs2, evs2) →
  CommitHeight b ≤ CommitHeight b1 ∧ CommitHeight b1 ≤ CommitHeight b2.
Proof.
  intros Hok H1 H2. unfold CommitHeight.
  destruct (FlushAll_commitHeight _ _ _ _ _ Hok H1) as [Hok1 Hle1].
  destruct (FlushAll_commitHeight _ _ _ _ _ Hok1 H2) as [_ Hle2].
  done.
Qed.

End flush_sequences.

(** ** Flushing a block again *)

Section reflush.
Context {Block Chain : Type} `{!BlockLike Block, !Blockchain Chain Block}.
Context `{!U64Heights Chain Block, !ChainAdvances Chain Block}.
Implicit Types (b : blockBuffer Block Chain) (evs : list CommitEvent).

(** C6, as the code has it.  After a [Flush] of [blk] that returned
    [bCheckinValid], flushing [blk] again changes nothing and commits
    nothing, with outcome [bCheckinExisting] when the first call left the
    block pending (a gap below it kept it from being drained) and
    [bCheckinLower] when the first call committed it. *)
Theorem reflush_after_Valid b blk b1 r evs :
  keys_ok b →
  Flush b (Some blk) = Some (b1, (r, bCheckinValid), evs) →
  (is_Some (blocks b1 !! Height blk) →
     Flush b1 (Some blk) = Some (b1, (false, bCheckinExisting), []))
  ∧ ((Height blk, None) ∈ evs →
     Flush b1 (Some blk) = Some (b1, (false, bCheckinLower), [])).
Proof.
  intros Hk HF.
  destruct (Flush_Valid_shape _ _ _ _ _ Hk HF)
    as (Hlow & _ & _ & n & stop & Hn & Hevs & _ & _ & Ht & _ & Hm).
  assert (0 ≤ stop_len stop) as Hsl by (destruct stop; simpl; lia).
  split.
  - intros [y Hy]. pose proof (Hm _ _ Hy) as [_ Hout].
    unfold Flush, Flush_fuel.
    destruct (Z.leb_spec (Height blk) (TipHeight (bc b1))); [lia|].
    rewrite bool_decide_eq_true_2; [done|by exists y].
  - intros Hin. rewrite Hevs in Hin.
    apply elem_of_app in Hin as [Hin|Hin].
    + apply elem_of_ok_events in Hin as [_ Hin].
      unfold Flush, Flush_fuel.
      destruct (Z.leb_spec (Height blk) (TipHeight (bc b1))); [done|lia].
    + destruct stop; simpl in Hin.
      * by apply list_elem_of_singleton in Hin.
      * by apply elem_of_nil in Hin.
Qed.

End reflush.

(** ** The inserted block *)

Section insertion_facts.
Context {Block Chain : Type} `{!BlockLike Block, !Blockchain Chain Block}.
Context `{!U64Heights Chain Block}.
Implicit Types (b : blockBuffer Block Chain) (evs : list CommitEvent).

(** The loop only deletes what it passes to [commitBlock]. *)
Lemma drains_untouched limit h b b' h' evs :
  drains limit h b b' h' evs →
  ∀ k, k ∉ event_heights evs → blocks b' !! k = blocks b !! k.
Proof.
  induction 1 as
    [h b Hstop
    |h b blk bc' err Hle Hblk Hc
    |h b blk bc' b' h' evs Hle Hblk Hc Hd IH]; intros k Hk.
  - done.
  - simpl. apply lookup_delete_ne. intros ->. apply Hk. simpl. left.
  - rewrite IH.
    + simpl. apply lookup_delete_ne. intros ->. apply Hk. simpl. left.
    + intros Hin. apply Hk. simpl. by right.
Qed.

(** A loop entered at a height within the limit that has an entry starts by
    passing that entry to [commitBlock]. *)
Lemma drains_first limit h b b' h' evs blk :
  drains limit h b b' h' evs →
  h ≤ limit → blocks b !! h = Some blk →
  ∃ rest, evs = (h, (commitBlock (bc b) blk).2) :: rest.
Proof.
  intros Hd Hle Hblk.
  destruct Hd as
    [h b [Hstop|Hstop]
    |h b blk0 bc' err _ Hblk0 Hc
    |h b blk0 bc' b' h' evs _ Hblk0 Hc Hd].
  - lia.
  - congruence.
  - assert (blk0 = blk) as -> by congruence. rewrite Hc. by eexists.
  - assert (blk0 = blk) as -> by congruence. rewrite Hc. by eexists.
Qed.

(** After a [bCheckinValid] call the flushed block is where the insertion
    put it, unless the drain reached its height; and a block at tip + 1 is
    the first one handed to [commitBlock]. *)
Lemma Flush_Valid_inserted b blk b' r evs :
  Flush b (Some blk) = Some (b', (r, bCheckinValid), evs) →
  (blocks b' !! Height blk = Some blk ∨ Height blk ∈ event_heights evs)
  ∧ (Height blk = TipHeight (bc b) + 1 →
     ∃ rest, evs = (Height blk, (commitBlock (bc b) blk).2) :: rest).
Proof.
  intros HF.
  destruct (Flush_inv _ _ _ _ _ HF) as [(Hne & _)|Hv]; [done|].
  destruct Hv as (x & bd & hts & [= <-] & Hlow & Hnone & Hhigh & Hd & -> & _).
  split.
  - destruct (decide (Height blk ∈ event_heights evs)) as [Hin|Hnin];
      [by right|left].
    rewrite cleanup_lookup_above by done.
    rewrite (drains_untouched _ _ _ _ _ _ Hd _ Hnin). simpl.
    apply lookup_insert_eq.
  - intros Hnext.
    pose proof (Height_u64 blk) as Hx.
    pose proof (TipHeight_u64 (bc b)) as Hc.
    rewrite (u64_small (TipHeight (bc b) + 1)) in Hd
      by (unfold is_u64 in *; lia).
    rewrite <-Hnext in Hd.
    apply (drains_first _ _ _ _ _ _ blk) in Hd; [done|done|].
    simpl. apply lookup_insert_eq.
Qed.

End insertion_facts.

(** ** Classification *)

Section classification.
Context {Block Chain : Type} `{!BlockLike Block, !Blockchain Chain Block}.
Context `{!U64Heights Chain Block}.
Implicit Types (b : blockBuffer Block Chain) (blk : Block).

(** C3.  [Flush] classifies by the first rule that applies: a nil block is
    [bCheckinSkipNil]; a height at or below the tip is [bCheckinLower]; a
    height already pending is [bCheckinExisting]; a height beyond
    tip + size (the sum as the code computes it, in [uint64]: it is the
    plain sum as long as that is below 2^64) is [bCheckinHigher]; in these
    four cases nothing changes.  Otherwise the
    block is inserted into the map, the call goes on to the drain from the
    map with the block in it, and its outcome is [bCheckinValid]: when the
    call returns, the block is the entry of its height in the map, unless
    the drain reached that height and passed it to [commitBlock]; a block
    at tip + 1 is the first one passed to [commitBlock].  In
    particular, on a buffer whose pending heights are within the window, a
    block at tip + size + 1 is [bCheckinHigher] and is not inserted. *)
Theorem Flush_classification b :
  let tip := TipHeight (bc b) in
  Flush b None = Some (b, (false, bCheckinSkipNil), [])
  ∧ (∀ blk, Height blk ≤ tip →
       Flush b (Some blk) = Some (b, (false, bCheckinLower), []))
  ∧ (∀ blk, tip < Height blk → is_Some (blocks b !! Height blk) →
       Flush b (Some blk) = Some (b, (false, bCheckinExisting), []))
  ∧ (∀ blk, tip < Height blk → blocks b !! Height blk = None →
       u64 (tip + size b) < Height blk →
       Flush b (Some blk) = Some (b, (false, bCheckinHigher), []))
  ∧ (∀ blk, tip < Height blk → blocks b !! Height blk = None →
       Height blk ≤ u64 (tip + size b) →
       Flush b (Some blk)
       = flushValid (S (S (base.size (blocks b)))) tip (Height blk)
           (set_blocks (<[Height blk := blk]> (blocks b)) b)
       ∧ ∃ b' r evs,
           Flush b (Some blk) = Some (b', (r, bCheckinValid), evs)
           ∧ (blocks b' !! Height blk = Some blk
              ∨ Height blk ∈ event_heights evs)
           ∧ (Height blk = tip + 1 →
              ∃ rest, evs = (Height blk, (commitBlock (bc b) blk).2) :: rest))
  ∧ (∀ blk, Height blk = tip + size b + 1 → 0 ≤ size b → in_window b →
       Flush b (Some blk) = Some (b, (false, bCheckinHigher), []))
  ∧ (0 ≤ size b → tip + size b < 2 ^ 64 → u64 (tip + size b) = tip + size b).
Proof.
  intros tip. unfold Flush, Flush_fuel. fold tip.
  assert (∀ blk, tip < Height blk → blocks b !! Height blk = None →
            u64 (tip + size b) < Height blk →
            (if Height blk <=? tip
             then Some (b, (false, bCheckinLower), [])
             else if bool_decide (is_Some (blocks b !! Height blk))
               then Some (b, (false, bCheckinExisting), [])
               else if u64 (tip + size b) <? Height blk
                 then Some (b, (false, bCheckinHigher), [])
                 else flushValid (S (S (base.size (blocks b)))) tip
                        (Height blk)
                        (set_blocks (<[Height blk:=blk]> (blocks b)) b))
            = Some (b, (false, bCheckinHigher), [])) as Hhigher.
  { intros blk Hlow Hnone Hhigh.
    destruct (Z.leb_spec (Height blk) tip); [lia|].
    rewrite bool_decide_eq_false_2 by (rewrite Hnone; by intros [? ?]).
    destruct (Z.ltb_spec (u64 (tip + size b)) (Height blk)); [done|lia]. }
  split_and!.
  - done.
  - intros blk Hlow. destruct (Z.leb_spec (Height blk) tip); [done|lia].
  - intros blk Hlow Hex.
    destruct (Z.leb_spec (Height blk) tip); [lia|].
    by rewrite bool_decide_eq_true_2.
  - done.
  - intros blk Hlow Hnone Hin.
    destruct (Z.leb_spec (Height blk) tip); [lia|].
    rewrite bool_decide_eq_false_2 by (rewrite Hnone; by intros [? ?]).
    destruct (Z.ltb_spec (u64 (tip + size b)) (Height blk)); [lia|].
    split; [done|]. unfold flushValid.
    destruct (drain_total (S (S (base.size (blocks b))))
                (u64 (tip + size
                   (set_blocks (<[Height blk:=blk]> (blocks b)) b)))
                (u64 (tip + 1))
                (set_blocks (<[Height blk:=blk]> (blocks b)) b))
      as [[[bd hts] evs] Hd].
    + simpl. rewrite map_size_insert_None by done. lia.
    + assert (Flush b (Some blk)
              = Some (cleanup tip bd, (Height blk <? hts, bCheckinValid), evs))
        as HF.
      { unfold Flush, Flush_fuel. fold tip.
        destruct (Z.leb_spec (Height blk) tip); [lia|].
        rewrite bool_decide_eq_false_2 by (rewrite Hnone; by intros [? ?]).
        destruct (Z.ltb_spec (u64 (tip + size b)) (Height blk)); [lia|].
        unfold flushValid. by rewrite Hd. }
      rewrite Hd. eexists _, _, _. split; [done|].
      exact (Flush_Valid_inserted _ _ _ _ _ HF).
  - intros blk HH Hsz Hwin.
    pose proof (Height_u64 blk) as Hx.
    pose proof (TipHeight_u64 (bc b)) as Hc. fold tip in Hc.
    assert (u64 (tip + size b) = tip + size b) as Hsum
      by (apply u64_small; unfold is_u64 in *; lia).
    apply Hhigher; [lia| |lia].
    destruct (blocks b !! Height blk) eqn:Hl; [|done].
    assert (Height blk ≤ tip + size b); [|lia].
    apply Hwin. by eexists.
  - intros Hsz Hsum. apply u64_small.
    pose proof (TipHeight_u64 (bc b)) as Hc. fold tip in Hc.
    unfold is_u64 in *. lia.
Qed.

End classification.

(** ** Intervals to sync *)

Section intervals.
Context {Block : Type}.
Implicit Types (m : gmap Z Block) (bi : list syncBlocksInterval).

Local Arguments u64 : simpl never.

Lemma covers_app bi1 bi2 k :
  covers (bi1 ++ bi2) k ↔ covers bi1 k ∨ covers bi2 k.
Proof.
  unfold covers. split.
  - intros (iv & [Hin|Hin]%elem_of_app & Hk); [left|right]; by exists iv.
  - intros [(iv & Hin & Hk)|(iv & Hin & Hk)]; exists iv;
      (split; [apply elem_of_app; auto|done]).
Qed.

Lemma covers_singleton iv k : covers [iv] k ↔ Start iv ≤ k ≤ End iv.
Proof.
  unfold covers. split.
  - by intros (iv' & ->%list_elem_of_singleton & Hk).
  - intros Hk. exists iv. split; [by apply list_elem_of_singleton|done].
Qed.

Lemma covers_bound bi lo hi k :
  Forall (λ iv, lo ≤ Start iv ∧ Start iv ≤ End iv ∧ End iv < hi) bi →
  covers bi k → lo ≤ k < hi.
Proof.
  intros Hall (iv & Hin & Hk). rewrite Forall_forall in Hall.
  specialize (Hall _ Hin). simpl in Hall. lia.
Qed.

(** Closing the open run [start, h-1] at a present height [h]. *)
Lemma scan_inv_close m c h start bi :
  0 ≤ c → is_Some (m !! h) →
  scan_inv m c h start true bi →
  scan_inv m c (h + 1) start false (bi ++ [mkInterval start (h - 1)]).
Proof.
  intros Hc Hpres (Hfront & Hrun & _ & Hall & Hsorted & Hcov).
  destruct (Hrun eq_refl) as [Hlt Hmissing]. simpl in *.
  unfold scan_inv. simpl.
  refine (conj _ (conj _ (conj _ (conj _ (conj _ _))))).
  - lia.
  - discriminate.
  - intros _ _. by replace (h + 1 - 1) with h by lia.
  - apply Forall_app. split.
    + eapply Forall_impl; [exact Hall|]. simpl. intros iv ?. lia.
    + apply Forall_singleton. simpl. lia.
  - apply StronglySorted_app. split; [|split; [done|repeat constructor]].
    intros iv1 iv2 Hin1 ->%list_elem_of_singleton. simpl.
    rewrite Forall_forall in Hall. specialize (Hall _ Hin1). simpl in Hall.
    lia.
  - intros k Hk. rewrite covers_app, covers_singleton. simpl.
    destruct (decide (k < start)) as [Hks|Hks].
    + rewrite Hcov by lia. split; [by left|]. intros [?|?]; [done|lia].
    + destruct (decide (k = h)) as [->|Hne].
      * split.
        -- intros Hnone. destruct Hpres as [? Hp]. congruence.
        -- intros [Hcv|?]; [|lia].
           eapply covers_bound in Hcv; [|exact Hall]. lia.
      * split; [intros _; right; lia|]. intros _. apply Hmissing. lia.
Qed.

(** One more iteration keeps the invariant, in each of the four cases. *)
Lemma scan_inv_step m c h start startSet bi :
  0 ≤ c → c + 1 ≤ h →
  scan_inv m c h start startSet bi →
  match m !! h with
  | None =>
    if startSet then scan_inv m c (h + 1) start true bi
    else scan_inv m c (h + 1) h true bi
  | Some _ =>
    if startSet
    then scan_inv m c (h + 1) start false (bi ++ [mkInterval start (h - 1)])
    else scan_inv m c (h + 1) start false bi
  end.
Proof.
  intros Hc Hh Hinv.
  destruct (m !! h) as [x|] eqn:Hx; destruct startSet.
  - apply scan_inv_close; [done|by eexists|done].
  - destruct Hinv as (Hfront & _ & _ & Hall & Hsorted & Hcov). simpl in *.
    unfold scan_inv. simpl.
    refine (conj _ (conj _ (conj _ (conj _ (conj _ _))))).
    + lia.
    + discriminate.
    + intros _ _. replace (h + 1 - 1) with h by lia. by eexists.
    + eapply Forall_impl; [exact Hall|]. simpl. intros iv ?. lia.
    + done.
    + intros k Hk. destruct (decide (k = h)) as [->|Hne].
      * split; [congruence|]. intros Hcv.
        eapply covers_bound in Hcv; [|exact Hall]. lia.
      * apply Hcov. lia.
  - destruct Hinv as (Hfront & Hrun & _ & Hall & Hsorted & Hcov).
    destruct (Hrun eq_refl) as [Hlt Hmissing]. simpl in *.
    unfold scan_inv. simpl.
    refine (conj _ (conj _ (conj _ (conj _ (conj _ _))))).
    + lia.
    + intros _. split; [lia|]. intros k Hk.
      destruct (decide (k = h)) as [->|Hne]; [done|]. apply Hmissing. lia.
    + discriminate.
    + done.
    + done.
    + done.
  - destruct Hinv as (Hfront & _ & _ & Hall & Hsorted & Hcov). simpl in *.
    unfold scan_inv. simpl.
    refine (conj _ (conj _ (conj _ (conj _ (conj _ _))))).
    + lia.
    + intros _. split; [lia|]. intros k Hk. by replace k with h by lia.
    + discriminate.
    + done.
    + done.
    + done.
Qed.

(** The loop ends within [targetHeight + 1 - h] iterations, with the
    invariant at [targetHeight + 1]. *)
Lemma scan_spec m c t n : ∀ fuel h start startSet bi,
  0 ≤ c → t < 2 ^ 64 - 1 →
  Z.of_nat n = t + 1 - h → (n < fuel)%nat → c + 1 ≤ h →
  scan_inv m c h start startSet bi →
  ∃ start' startSet' bi',
    scan fuel m t h start startSet bi = Some (start', startSet', bi')
    ∧ scan_inv m c (t + 1) start' startSet' bi'.
Proof.
  induction n as [|n IH]; intros fuel h start startSet bi Hc Ht Hn Hfuel Hh Hinv.
  - destruct fuel as [|fuel]; [lia|]. simpl.
    destruct (Z.leb_spec h t); [lia|].
    replace (t + 1) with h by lia. by eexists _, _, _.
  - destruct fuel as [|fuel]; [lia|]. simpl.
    destruct (Z.leb_spec h t); [|lia].
    rewrite (u64_small (h + 1)) by (unfold is_u64; lia).
    rewrite (u64_small (h - 1)) by (unfold is_u64; lia).
    pose proof (scan_inv_step _ _ _ _ _ _ Hc Hh Hinv) as Hstep.
    destruct (m !! h); destruct startSet;
      (apply IH; [done|done|lia|lia|lia|done]).
Qed.

(** With the largest [uint64] as target the loop test never fails (the
    counter wraps to 0): no number of iterations ends the loop. *)
Lemma scan_max_target_diverges m fuel : ∀ h start startSet bi,
  is_u64 h → scan fuel m (2 ^ 64 - 1) h start startSet bi = None.
Proof.
  induction fuel as [|fuel IH]; intros h start startSet bi Hh; simpl; [done|].
  destruct (Z.leb_spec h (2 ^ 64 - 1)); [|unfold is_u64 in Hh; lia].
  destruct (m !! h); destruct startSet; apply IH, u64_range.
Qed.

End intervals.

Section intervals_to_sync.
Context {Block Chain : Type} `{!BlockLike Block, !Blockchain Chain Block}.
Context `{!U64Heights Chain Block}.
Implicit Types (b : blockBuffer Block Chain).

Local Arguments u64 : simpl never.

(** C4, as the code has it.  When the tip is at or above the target the
    result is empty.  Otherwise, when the window is not empty
    ([1 ≤ size]), tip + size does not overflow [uint64] and the clamped
    target is not the largest [uint64] (the loop counter would wrap and the
    loop not end), the result is a list of non-empty closed intervals,
    ascending and pairwise disjoint, whose union is exactly the heights of
    [tip+1, min(target, tip+size)] that have no entry in the map. *)
Theorem GetBlocksIntervalsToSync_spec b targetHeight :
  let tip := TipHeight (bc b) in
  (targetHeight ≤ tip →
     ∀ fuel, GetBlocksIntervalsToSync fuel b targetHeight = Some [])
  ∧ (tip < targetHeight →
     1 ≤ size b → tip + size b < 2 ^ 64 →
     Z.min targetHeight (tip + size b) < 2 ^ 64 - 1 →
     ∃ bi,
       (∀ fuel, (Z.to_nat (size b) < fuel)%nat →
          GetBlocksIntervalsToSync fuel b targetHeight = Some bi)
       ∧ ascending_disjoint bi
       ∧ ∀ h, covers bi h ↔
              (tip + 1 ≤ h ≤ Z.min targetHeight (tip + size b)
               ∧ blocks b !! h = None)).
Proof.
  intros tip. pose proof (TipHeight_u64 (bc b)) as Hc. fold tip in Hc.
  split.
  { intros Hle fuel. unfold GetBlocksIntervalsToSync. fold tip.
    by destruct (Z.leb_spec targetHeight tip); [|lia]. }
  intros Hlt Hsz Hsum Hmax.
  set (t := Z.min targetHeight (tip + size b)) in *.
  assert (u64 (tip + size b) = tip + size b) as Hws
    by (apply u64_small; unfold is_u64 in *; lia).
  assert (u64 (tip + 1) = tip + 1) as Hw1
    by (apply u64_small; unfold is_u64 in *; lia).
  assert ((if u64 (tip + size b) <? targetHeight
           then u64 (tip + size b) else targetHeight) = t) as Hclamp.
  { rewrite Hws. unfold t. destruct (Z.ltb_spec (tip + size b) targetHeight); lia. }
  assert (tip + 1 ≤ t) as Hrun by (unfold t; lia).
  assert (scan_inv (blocks b) tip (tip + 1) 0 false []) as Hinit.
  { unfold scan_inv. simpl.
    refine (conj _ (conj _ (conj _ (conj _ (conj _ _))))).
    - lia.
    - discriminate.
    - intros _ ?. lia.
    - constructor.
    - constructor.
    - intros k ?. lia. }
  destruct (scan_spec (blocks b) tip t (Z.to_nat (t - tip))
              (S (Z.to_nat (t - tip))) (tip + 1) 0 false [])
    as (start & startSet & bi & Hscan & Hfin);
    [unfold is_u64 in *; lia|done|lia|lia|lia|done|].
  destruct Hfin as (Hfront & Hopen & Hprev & Hall & Hsorted & Hcov).
  assert (∀ fuel, (Z.to_nat (size b) < fuel)%nat →
            scan fuel (blocks b) t (tip + 1) 0 false []
            = Some (start, startSet, bi)) as Hany.
  { intros fuel Hfuel.
    destruct (scan_spec (blocks b) tip t (Z.to_nat (t - tip)) fuel
                (tip + 1) 0 false [])
      as (start' & startSet' & bi' & Hscan' & _);
      [unfold is_u64 in *; lia|done|lia|unfold t; lia|lia|done|].
    rewrite Hscan'.
    assert (∀ f1 f2 r1 r2,
              scan f1 (blocks b) t (tip + 1) 0 false [] = Some r1 →
              scan f2 (blocks b) t (tip + 1) 0 false [] = Some r2 →
              r1 = r2) as Hdet.
    { generalize (tip + 1) 0 false (@nil syncBlocksInterval).
      intros h0 s0 ss0 bi0 f1. revert h0 s0 ss0 bi0.
      induction f1 as [|f1 IH]; intros h0 s0 ss0 bi0 f2 r1 r2; simpl;
        [discriminate|].
      destruct f2 as [|f2]; simpl; [discriminate|].
      destruct (h0 <=? t); [|congruence].
      destruct (blocks b !! h0), ss0; apply IH. }
    by rewrite (Hdet _ _ _ _ Hscan' Hscan). }
  destruct (blocks b !! t) as [x|] eqn:Hx.
  - (* the last height is present: no run is open *)
    assert (startSet = false) as ->.
    { destruct startSet; [|done]. destruct (Hopen eq_refl) as [? Hmiss].
      rewrite Hmiss in Hx by lia. discriminate. }
    simpl in *. exists bi. split_and!.
    + intros fuel Hfuel. unfold GetBlocksIntervalsToSync. fold tip.
      destruct (Z.leb_spec targetHeight tip); [lia|].
      rewrite Hclamp, Hw1, (Hany fuel Hfuel), Hx. done.
    + split; [|done]. eapply Forall_impl; [exact Hall|]. simpl. intros iv ?. lia.
    + intros h. split.
      * intros Hcv. pose proof (covers_bound _ _ _ _ Hall Hcv).
        split; [lia|]. apply Hcov; [lia|done].
      * intros [Hh Hnone]. apply Hcov; [lia|done].
  - (* the last height is missing: it closes the open run *)
    assert (startSet = true) as ->.
    { destruct startSet; [done|].
      destruct Hprev as [y Hy]; [done|lia|].
      replace (t + 1 - 1) with t in Hy by lia. congruence. }
    destruct (Hopen eq_refl) as [Hst Hmiss]. simpl in *.
    exists (bi ++ [mkInterval start t]). split_and!.
    + intros fuel Hfuel. unfold GetBlocksIntervalsToSync. fold tip.
      destruct (Z.leb_spec targetHeight tip); [lia|].
      rewrite Hclamp, Hw1, (Hany fuel Hfuel), Hx. done.
    + split.
      * apply Forall_app. split.
        -- eapply Forall_impl; [exact Hall|]. simpl. intros iv ?. lia.
        -- apply Forall_singleton. simpl. lia.
      * apply StronglySorted_app. split; [|split; [done|repeat constructor]].
        intros iv1 iv2 Hin1 ->%list_elem_of_singleton. simpl.
        rewrite Forall_forall in Hall. specialize (Hall _ Hin1).
        simpl in Hall. lia.
    + intros h. rewrite covers_app, covers_singleton. simpl. split.
      * intros [Hcv|Hin].
        -- pose proof (covers_bound _ _ _ _ Hall Hcv).
           split; [lia|]. apply Hcov; [lia|done].
        -- split; [lia|]. apply Hmiss. lia.
      * intros [Hh Hnone]. destruct (decide (h < start)).
        -- left. apply Hcov; [lia|done].
        -- right. lia.
Qed.

End intervals_to_sync.

(** ** More on one call of [Flush] *)

Section flush_more.
Context {Block Chain : Type} `{!BlockLike Block, !Blockchain Chain Block}.
Context `{!U64Heights Chain Block, !ChainAdvances Chain Block}.
Implicit Types (b : blockBuffer Block Chain) (evs : list CommitEvent).

Local Arguments ok_events : simpl never.
Local Arguments u64 : simpl never.

(** Where the loop stops, the map has no entry, unless the limit was
    passed. *)
Lemma drains_end limit h b b' h' evs :
  drains limit h b b' h' evs → limit < h' ∨ blocks b' !! h' = None.
Proof.
  induction 1 as [h b Hstop|h b blk bc' err Hle Hblk Hc|]; [done| |done].
  right. simpl. apply lookup_delete_eq.
Qed.

Lemma u64_le z : 0 ≤ z → u64 z ≤ z.
Proof. intros Hz. unfold u64. apply Z.mod_le; lia. Qed.

(** A [bCheckinValid] call in full: the buffer [bd] the loop ends on, the
    number [n] of commits, the failed call if any, the flag and the reason
    the loop stopped. *)
Lemma Flush_Valid_drain b x b' flag evs :
  keys_ok b →
  Flush b (Some x) = Some (b', (flag, bCheckinValid), evs) →
  let c := TipHeight (bc b) in
  let limit := u64 (c + size b) in
  c < Height x ∧ Height x ≤ limit ∧ blocks b !! Height x = None
  ∧ ∃ bd n stop,
      b' = cleanup c bd
      ∧ 0 ≤ n
      ∧ evs = ok_events (c + 1) n ++ stop_event (c + 1 + n) stop
      ∧ (0 < n + stop_len stop → c + n + stop_len stop ≤ limit)
      ∧ TipHeight (bc bd) = c + n
      ∧ size bd = size b
      ∧ commitHeight bd = (if 0 <? n then c + n else commitHeight b)
      ∧ (∀ k, blocks bd !! k =
              if bool_decide (c + 1 ≤ k < c + 1 + n + stop_len stop) then None
              else <[Height x := x]> (blocks b) !! k)
      ∧ flag = (Height x <? match stop with
                            | Some _ => c + 1 + n
                            | None => u64 (c + 1 + n)
                            end)
      ∧ (limit < u64 (c + 1 + n) ∨ blocks bd !! (c + 1 + n) = None).
Proof.
  intros Hk HF c limit.
  destruct (Flush_inv _ _ _ _ _ HF) as [(Hne & _)|Hv]; [done|].
  destruct Hv as (x' & bd & hts & [= <-] & Hlow & Hnone & Hhigh & Hd & -> & Hr).
  fold c in Hlow, Hhigh, Hd |- *. fold limit in Hhigh, Hd.
  pose proof (TipHeight_u64 (bc b)) as Hc. fold c in Hc.
  pose proof (Height_u64 x) as Hx.
  assert (is_u64 (c + 1)) as Hc1 by (unfold is_u64 in *; lia).
  rewrite (u64_small (c + 1)) in Hd by done.
  pose proof (drains_end _ _ _ _ _ _ Hd) as Hend.
  apply drains_shape in Hd; [|done|apply u64_range|].
  2:{ intros k y. simpl. rewrite lookup_insert_Some.
      intros [[<- <-]|[_ Hl]]; [split; [done|unfold is_u64 in *; lia]|].
      by apply Hk. }
  destruct Hd as (n & stop & Hn & Hevs & Hbound & Hsz & Hch & Ht & Hm & Hhts).
  simpl in *. fold c in Ht.
  split_and!; try done.
  exists bd, n, stop. split_and!; try done.
  - intros Hpos. destruct (Hbound Hpos). lia.
  - rewrite Ht. destruct (Z.ltb_spec 0 n); lia.
  - rewrite Hch. destruct (0 <? n); [f_equal; lia|done].
  - injection Hr as ->. by rewrite Hhts.
  - destruct stop as [e|].
    + right. rewrite Hm. simpl. by rewrite bool_decide_eq_true_2 by lia.
    + subst hts. destruct (decide (c + 1 + n < 2 ^ 64)) as [Hs|Hs].
      * rewrite (u64_small (c + 1 + n)) in * by (unfold is_u64 in *; lia).
        done.
      * right. rewrite Hm. simpl.
        rewrite bool_decide_eq_false_2 by lia.
        destruct (<[Height x:=x]> (blocks b) !! (c + 1 + n)) as [y|] eqn:Hy;
          [|done].
        apply lookup_insert_Some in Hy as [[Hy _]|[_ Hy]].
        -- unfold is_u64 in *. lia.
        -- destruct (Hk _ _ Hy) as [Hhy _]. pose proof (Height_u64 y).
           unfold is_u64 in *. lia.
Qed.

(** X1.  Whatever block is flushed, the calls of [commitBlock] made by one
    [Flush] are at the consecutive heights tip+1, tip+2, ... in ascending
    order; all of them succeed except possibly the last one, which then ends
    the call; the tip moves up by the number [n] of successes, the heights
    committed are gone from the map, and the number of calls is at most the
    window size. *)
Theorem Flush_commits_in_order b blk b' r evs :
  keys_ok b → 0 ≤ size b →
  Flush b blk = Some (b', r, evs) →
  let c := TipHeight (bc b) in
  ∃ n stop,
    0 ≤ n
    ∧ evs = ok_events (c + 1) n ++ stop_event (c + 1 + n) stop
    ∧ event_heights evs = seqZ (c + 1) (n + stop_len stop)
    ∧ n + stop_len stop ≤ size b
    ∧ TipHeight (bc b') = c + n
    ∧ (∀ k, c < k ≤ c + n → blocks b' !! k = None).
Proof.
  intros Hk Hsz HF c.
  pose proof (TipHeight_u64 (bc b)) as Hc. fold c in Hc.
  destruct (Flush_inv _ _ _ _ _ HF) as [(_ & _ & -> & ->)|Hv].
  { exists 0, None. simpl. fold c.
    split_and!; first [done|lia|intros k ?; lia]. }
  destruct Hv as (x & bd0 & hts & -> & _ & _ & _ & _ & _ & ->).
  destruct (Flush_Valid_drain _ _ _ _ _ Hk HF)
    as (_ & _ & _ & bd & n & stop & -> & Hn & Hevs & Hbound & Ht & _ & _
        & Hm & _).
  fold c in Hevs, Hbound, Ht, Hm.
  assert (0 ≤ stop_len stop) as Hsl by (destruct stop; simpl; lia).
  exists n, stop. split_and!; try done.
  - rewrite Hevs. by apply event_heights_shape.
  - destruct (decide (0 < n + stop_len stop)) as [Hpos|]; [|lia].
    specialize (Hbound Hpos).
    pose proof (u64_le (c + size b)). unfold is_u64 in *. lia.
  - fold c. destruct (cleanup_fields c bd) as (-> & _). done.
  - intros k Hk'. fold c. rewrite cleanup_lookup_above by lia. rewrite Hm.
    by rewrite bool_decide_eq_true_2 by lia.
Qed.

(** X2.  The flag returned by [Flush] tells whether the flushed block itself
    went into the chain during the call: it is true exactly when
    [commitBlock] was called on the block's height and succeeded.  (The
    window must end below the largest [uint64], where the loop counter would
    wrap.) *)
Theorem Flush_flag_iff_committed b blk b' flag outcome evs :
  keys_ok b → 0 ≤ size b →
  TipHeight (bc b) + size b < 2 ^ 64 - 1 →
  Flush b (Some blk) = Some (b', (flag, outcome), evs) →
  flag = true ↔ (Height blk, None) ∈ evs.
Proof.
  intros Hk Hsz Hsum HF.
  pose proof (TipHeight_u64 (bc b)) as Hc.
  destruct (Flush_inv _ _ _ _ _ HF) as [(_ & Hf & _ & ->)|Hv].
  { simpl in Hf. subst flag. split; [done|]. intros Hin.
    by apply elem_of_nil in Hin. }
  destruct Hv as (x & bd0 & hts & [= <-] & _ & _ & _ & _ & _ & [= _ ->]).
  destruct (Flush_Valid_drain _ _ _ _ _ Hk HF)
    as (Hlow & _ & _ & bd & n & stop & _ & Hn & Hevs & Hbound & _ & _ & _
        & _ & -> & _).
  set (c := TipHeight (bc b)) in *.
  assert (0 ≤ stop_len stop) as Hsl by (destruct stop; simpl; lia).
  assert (u64 (c + size b) = c + size b) as Hlim
    by (apply u64_small; unfold is_u64 in *; lia).
  assert (c + 1 + n < 2 ^ 64) as Hs.
  { destruct (decide (0 < n + stop_len stop)) as [Hpos|]; [|lia].
    specialize (Hbound Hpos). lia. }
  rewrite Hevs, elem_of_app, elem_of_ok_events.
  assert ((match stop with Some _ => c + 1 + n | None => u64 (c + 1 + n) end)
          = c + 1 + n) as ->.
  { destruct stop; [done|]. apply u64_small. unfold is_u64 in *. lia. }
  destruct (Z.ltb_spec (Height blk) (c + 1 + n)); split.
  - intros _. left. split; [done|lia].
  - done.
  - done.
  - intros [[_ ?]|Hin]; [lia|].
    destruct stop; simpl in Hin.
    + by apply list_elem_of_singleton in Hin.
    + by apply elem_of_nil in Hin.
Qed.

(** X3.  A [bCheckinValid] call never leaves the next block behind: when it
    returns, the map has no entry at the height that follows the chain tip
    (the drain went on while it had one, and a block the chain refused was
    deleted). *)
Theorem Flush_leaves_no_ready_block b blk b' flag evs :
  keys_ok b → in_window b → 0 ≤ size b →
  TipHeight (bc b) + size b < 2 ^ 64 →
  Flush b (Some blk) = Some (b', (flag, bCheckinValid), evs) →
  blocks b' !! (TipHeight (bc b') + 1) = None.
Proof.
  intros Hk Hwin Hsz Hsum HF.
  pose proof (TipHeight_u64 (bc b)) as Hc.
  destruct (Flush_Valid_drain _ _ _ _ _ Hk HF)
    as (Hlow & Hhigh & _ & bd & n & stop & -> & Hn & _ & Hbound & Ht & _ & _
        & Hm & _ & Hend).
  set (c := TipHeight (bc b)) in *.
  destruct (cleanup_fields c bd) as (-> & _). rewrite Ht.
  rewrite cleanup_lookup_above by lia.
  replace (c + n + 1) with (c + 1 + n) by lia.
  assert (u64 (c + size b) = c + size b) as Hlim
    by (apply u64_small; unfold is_u64 in *; lia).
  rewrite Hlim in *.
  destruct (decide (c + size b < c + 1 + n)) as [Hout|Hin].
  - rewrite Hm. case_bool_decide; [done|].
    destruct (<[Height blk:=blk]> (blocks b) !! (c + 1 + n)) as [y|] eqn:Hy;
      [|done].
    apply lookup_insert_Some in Hy as [[Hy _]|[_ Hy]]; [lia|].
    assert (c + 1 + n ≤ c + size b); [|lia]. apply Hwin. by eexists.
  - rewrite (u64_small (c + 1 + n)) in Hend by (unfold is_u64 in *; lia).
    destruct Hend; [lia|done].
Qed.

(** X4.  After a call that committed at least one block, the commit height
    of the buffer is the chain tip. *)
Theorem CommitHeight_is_tip_after_commit b blk b' r evs h :
  keys_ok b →
  Flush b blk = Some (b', r, evs) →
  (h, None) ∈ evs →
  CommitHeight b' = TipHeight (bc b').
Proof.
  intros Hk HF Hin.
  destruct (Flush_inv _ _ _ _ _ HF) as [(_ & _ & _ & ->)|Hv].
  { by apply elem_of_nil in Hin. }
  destruct Hv as (x & bd0 & hts & -> & _ & _ & _ & _ & _ & ->).
  destruct (Flush_Valid_drain _ _ _ _ _ Hk HF)
    as (_ & _ & _ & bd & n & stop & -> & Hn & Hevs & _ & Ht & _ & Hch & _).
  rewrite Hevs in Hin. apply elem_of_app in Hin as [Hin|Hin].
  - apply elem_of_ok_events in Hin as [_ Hin].
    destruct (cleanup_fields (TipHeight (bc b)) bd) as (Hbc & _ & Hcommit).
    unfold CommitHeight. rewrite Hcommit, Hbc, Hch, Ht.
    destruct (Z.ltb_spec 0 n); [done|lia].
  - destruct stop; simpl in Hin.
    + by apply list_elem_of_singleton in Hin.
    + by apply elem_of_nil in Hin.
Qed.

End flush_more.

(** ** Invariants of the pending map *)

Section pending_invariants.
Context {Block Chain : Type} `{!BlockLike Block, !Blockchain Chain Block}.
Context `{!U64Heights Chain Block, !ChainAdvances Chain Block}.
Implicit Types (b : blockBuffer Block Chain) (evs : list CommitEvent).

Local Arguments u64 : simpl never.

(** [Flush] never leaves an entry at or below the tip when there was none
    before. *)
Lemma Flush_above_tip b blk b' r evs :
  keys_ok b → above_tip b →
  Flush b blk = Some (b', r, evs) →
  above_tip b'.
Proof.
  intros Hk Hab HF.
  destruct (Flush_inv _ _ _ _ _ HF) as [(_ & _ & -> & ->)|Hv]; [done|].
  destruct Hv as (x & bd & hts & -> & _ & _ & _ & _ & _ & ->).
  destruct (Flush_Valid_shape _ _ _ _ _ Hk HF)
    as (Hlow & _ & _ & n & stop & Hn & _ & _ & _ & Ht & _ & Hm).
  assert (0 ≤ stop_len stop) as Hsl by (destruct stop; simpl; lia).
  intros k [y Hy]. rewrite Ht.
  apply Hm in Hy as [Hy Hout].
  apply lookup_insert_Some in Hy as [[<- <-]|[_ Hy]]; [lia|].
  assert (TipHeight (bc b) < k) by (apply Hab; by eexists). lia.
Qed.

Lemma Flush_size b blk b' r evs :
  keys_ok b → Flush b blk = Some (b', r, evs) → size b' = size b.
Proof.
  intros Hk HF.
  destruct (Flush_inv _ _ _ _ _ HF) as [(_ & _ & -> & ->)|Hv]; [done|].
  destruct Hv as (x & bd & hts & -> & _ & _ & _ & _ & _ & ->).
  by destruct (Flush_Valid_shape _ _ _ _ _ Hk HF)
    as (_ & _ & _ & n & stop & _ & _ & Hsize & _).
Qed.

(** A map whose keys lie above the tip and within the window has at most
    [size] entries. *)
Lemma window_bounds_pending b :
  above_tip b → in_window b → 0 ≤ size b → len (blocks b) ≤ size b.
Proof.
  intros Hab Hwin Hsz. unfold len.
  assert (dom (blocks b)
          ⊆ list_to_set (C:=gset Z) (seqZ (TipHeight (bc b) + 1) (size b)))
    as Hsub.
  { intros k Hk. apply elem_of_dom in Hk.
    apply elem_of_list_to_set, elem_of_seqZ.
    pose proof (Hab k Hk). pose proof (Hwin k Hk). lia. }
  apply subseteq_size in Hsub.
  rewrite size_dom, size_list_to_set, length_seqZ in Hsub
    by apply NoDup_seqZ.
  lia.
Qed.

(** X5.  Along every sequence of [Flush] calls the window size is constant
    and the map keeps its invariants: every pending block sits at its own
    height, above the chain tip and within the window.  So the buffer never
    holds more than [size] blocks. *)
Theorem FlushAll_pending_bounded blks : ∀ b b' rs evs,
  keys_ok b → above_tip b → in_window b → 0 ≤ size b →
  FlushAll b blks = Some (b', rs, evs) →
  size b' = size b
  ∧ keys_ok b' ∧ above_tip b' ∧ in_window b'
  ∧ len (blocks b') ≤ size b'.
Proof.
  induction blks as [|blk blks IH]; intros b b' rs evs Hk Hab Hwin Hsz; simpl.
  { intros [= <- <- <-]. split_and!; try done.
    by apply window_bounds_pending. }
  destruct (Flush b blk) as [[[b1 r] evs1]|] eqn:HF; [|discriminate].
  destruct (FlushAll b1 blks) as [[[b2 rs2] evs2]|] eqn:HA; [|discriminate].
  intros [= <- <- <-].
  pose proof (Flush_size _ _ _ _ _ Hk HF) as Hs1.
  destruct (Flush_step _ _ _ _ _ Hk HF) as (Hk1 & _).
  pose proof (Flush_above_tip _ _ _ _ _ Hk Hab HF) as Hab1.
  pose proof (Flush_in_window _ _ _ _ _ Hk Hsz Hwin HF) as Hwin1.
  destruct (IH _ _ _ _ Hk1 Hab1 Hwin1 ltac:(lia) HA) as (Hs2 & Hrest).
  split; [congruence|done].
Qed.

(** X6.  A call changes the entry of a height above the tip only if that
    height is the flushed block's or was passed to [commitBlock]: every
    other pending block above the tip is still there, unchanged. *)
Theorem Flush_keeps_untouched b blk b' r evs k :
  keys_ok b →
  Flush b (Some blk) = Some (b', r, evs) →
  TipHeight (bc b) < k → k ≠ Height blk → k ∉ event_heights evs →
  blocks b' !! k = blocks b !! k.
Proof.
  intros Hk HF Hlow Hne Hnin.
  destruct (Flush_inv _ _ _ _ _ HF) as [(_ & _ & -> & ->)|Hv]; [done|].
  destruct Hv as (x & bd & hts & [= <-] & _ & _ & _ & _ & _ & ->).
  destruct (Flush_Valid_shape _ _ _ _ _ Hk HF)
    as (_ & _ & _ & n & stop & Hn & Hevs & _ & _ & _ & Hm & _).
  rewrite Hevs, event_heights_shape, elem_of_seqZ in Hnin by done.
  rewrite Hm by done. rewrite bool_decide_eq_false_2 by lia.
  by rewrite lookup_insert_ne.
Qed.

End pending_invariants.

Section cleanup_facts.
Context {Block Chain : Type} `{!BlockLike Block, !Blockchain Chain Block}.
Implicit Types (b : blockBuffer Block Chain) (evs : list CommitEvent).




End cleanup_facts.

(** ** More on the intervals to sync *)

Section intervals_more.
Context {Block Chain : Type} `{!BlockLike Block, !Blockchain Chain Block}.
Context `{!U64Heights Chain Block}.
Implicit Types (b : blockBuffer Block Chain) (bi : list syncBlocksInterval).

Local Arguments u64 : simpl never.

(** The loop keeps [scan_inv], and every interval it has closed is a
    maximal run; so is the open one on its left side. *)
Lemma scan_preserves (m : gmap Z Block) c t fuel :
  ∀ h start startSet bi start' startSet' bi',
  0 ≤ c → t < 2 ^ 64 - 1 → c + 1 ≤ h ≤ t + 1 →
  scan fuel m t h start startSet bi = Some (start', startSet', bi') →
  scan_inv m c h start startSet bi →
  Forall (maximal_run m c t) bi →
  (startSet = true → start = c + 1 ∨ is_Some (m !! (start - 1))) →
  scan_inv m c (t + 1) start' startSet' bi'
  ∧ Forall (maximal_run m c t) bi'
  ∧ (startSet' = true → start' = c + 1 ∨ is_Some (m !! (start' - 1))).
Proof.
  induction fuel as [|fuel IH];
    intros h start startSet bi start' startSet' bi' Hc Ht Hh; simpl;
    [discriminate|].
  destruct (Z.leb_spec h t) as [Hle|Hgt].
  2:{ intros [= <- <- <-] Hinv Hmax Hopen.
      by replace (t + 1) with h by lia. }
  rewrite (u64_small (h + 1)) by (unfold is_u64; lia).
  rewrite (u64_small (h - 1)) by (unfold is_u64; lia).
  intros Hscan Hinv Hmax Hopen.
  pose proof (scan_inv_step _ _ _ _ _ _ Hc (proj1 Hh) Hinv) as Hstep.
  destruct (m !! h) as [x|] eqn:Hx; destruct startSet.
  - eapply (IH (h + 1)); [done|done|lia|exact Hscan|exact Hstep| |done].
    apply Forall_app. split; [done|]. apply Forall_singleton.
    split; simpl.
    + by apply Hopen.
    + right. replace (h - 1 + 1) with h by lia. by eexists.
  - eapply (IH (h + 1)); [done|done|lia|exact Hscan|exact Hstep|done|done].
  - eapply (IH (h + 1)); [done|done|lia|exact Hscan|exact Hstep|done|done].
  - eapply (IH (h + 1)); [done|done|lia|exact Hscan|exact Hstep|done|].
    intros _. destruct Hinv as (_ & _ & Hprev & _).
    destruct (decide (h = c + 1)) as [->|Hne]; [by left|].
    right. apply Hprev; [done|lia].
Qed.

(** What a result of [GetBlocksIntervalsToSync] is, for a target above the
    tip. *)
Lemma intervals_result fuel b targetHeight bi :
  let tip := TipHeight (bc b) in
  let t := Z.min targetHeight (tip + size b) in
  GetBlocksIntervalsToSync fuel b targetHeight = Some bi →
  tip < targetHeight → 1 ≤ size b → tip + size b < 2 ^ 64 →
  t < 2 ^ 64 - 1 →
  Forall (λ iv, tip + 1 ≤ Start iv ∧ Start iv ≤ End iv ∧ End iv ≤ t) bi
  ∧ Forall (maximal_run (blocks b) tip t) bi
  ∧ (∀ k, tip + 1 ≤ k ≤ t → (blocks b !! k = None ↔ covers bi k)).
Proof.
  intros tip t Hrun Hlt Hsz Hsum Hmax.
  pose proof (TipHeight_u64 (bc b)) as Hc. fold tip in Hc.
  unfold GetBlocksIntervalsToSync in Hrun. fold tip in Hrun.
  destruct (Z.leb_spec targetHeight tip); [lia|].
  assert (u64 (tip + size b) = tip + size b) as Hws
    by (apply u64_small; unfold is_u64 in *; lia).
  assert (u64 (tip + 1) = tip + 1) as Hw1
    by (apply u64_small; unfold is_u64 in *; lia).
  assert ((if u64 (tip + size b) <? targetHeight
           then u64 (tip + size b) else targetHeight) = t) as Hclamp.
  { rewrite Hws. unfold t.
    destruct (Z.ltb_spec (tip + size b) targetHeight); lia. }
  rewrite Hclamp, Hw1 in Hrun.
  destruct (scan fuel (blocks b) t (tip + 1) 0 false [])
    as [[[start startSet] bi0]|] eqn:Hscan; [|discriminate].
  assert (scan_inv (blocks b) tip (tip + 1) 0 false []) as Hinit.
  { unfold scan_inv. simpl.
    refine (conj _ (conj _ (conj _ (conj _ (conj _ _))))).
    - lia.
    - discriminate.
    - intros _ ?. lia.
    - constructor.
    - constructor.
    - intros k ?. lia. }
  destruct (scan_preserves (blocks b) tip t fuel (tip + 1) 0 false []
              start startSet bi0) as (Hfin & Hruns & Hopen);
    [unfold is_u64 in *; lia|done|unfold t; lia|done|done|constructor
    |discriminate|].
  destruct Hfin as (Hfront & Hrunopen & Hprev & Hall & Hsorted & Hcov).
  destruct (blocks b !! t) as [x|] eqn:Hx.
  - injection Hrun as <-.
    assert (startSet = false) as ->.
    { destruct startSet; [|done]. destruct (Hrunopen eq_refl) as [? Hmiss].
      rewrite Hmiss in Hx by lia. discriminate. }
    simpl in *. split_and!.
    + eapply Forall_impl; [exact Hall|]. simpl. intros iv ?. lia.
    + done.
    + intros k Hk. apply Hcov. lia.
  - injection Hrun as <-.
    assert (startSet = true) as ->.
    { destruct startSet; [done|].
      destruct Hprev as [y Hy]; [done|unfold t; lia|].
      replace (t + 1 - 1) with t in Hy by lia. congruence. }
    destruct (Hrunopen eq_refl) as [Hst Hmiss]. simpl in *.
    split_and!.
    + apply Forall_app. split.
      * eapply Forall_impl; [exact Hall|]. simpl. intros iv ?. lia.
      * apply Forall_singleton. simpl. lia.
    + apply Forall_app. split; [done|]. apply Forall_singleton.
      split; simpl; [by apply Hopen|by left].
    + intros k Hk. rewrite covers_app, covers_singleton. simpl.
      destruct (decide (k < start)) as [Hks|Hks].
      * rewrite Hcov by lia. split; [by left|].
        intros [?|?]; [done|lia].
      * split; [intros _; right; lia|]. intros _. apply Hmiss. lia.
Qed.



End intervals_more.

Section flush_then_intervals.
Context {Block Chain : Type} `{!BlockLike Block, !Blockchain Chain Block}.
Context `{!U64Heights Chain Block, !ChainAdvances Chain Block}.
Implicit Types (b : blockBuffer Block Chain) (bi : list syncBlocksInterval).

(** X10.  A block that [Flush] accepted is not asked for again: unless the
    chain refused it during the call, its height lies in none of the
    intervals that [GetBlocksIntervalsToSync] reports afterwards. *)
Theorem accepted_block_not_requested b blk b' flag evs fuel targetHeight bi :
  keys_ok b →
  Flush b (Some blk) = Some (b', (flag, bCheckinValid), evs) →
  (∀ err, (Height blk, Some err) ∉ evs) →
  1 ≤ size b' → TipHeight (bc b') + size b' < 2 ^ 64 →
  Z.min targetHeight (TipHeight (bc b') + size b') < 2 ^ 64 - 1 →
  GetBlocksIntervalsToSync fuel b' targetHeight = Some bi →
  ¬ covers bi (Height blk).
Proof.
  intros Hk HF Hok Hsz Hsum Hmax Hrun Hcv.
  destruct (decide (TipHeight (bc b') < targetHeight)) as [Hlt|Hge].
  2:{ unfold GetBlocksIntervalsToSync in Hrun.
      destruct (Z.leb_spec targetHeight (TipHeight (bc b'))); [|lia].
      injection Hrun as <-. destruct Hcv as (iv & Hin & _).
      by apply elem_of_nil in Hin. }
  destruct (intervals_result _ _ _ _ Hrun Hlt Hsz Hsum Hmax)
    as (Hall & _ & Hcov).
  assert (TipHeight (bc b') + 1 ≤ Height blk
          ≤ Z.min targetHeight (TipHeight (bc b') + size b')) as Hrange.
  { destruct Hcv as (iv & Hin & Hiv). rewrite Forall_forall in Hall.
    specialize (Hall _ Hin). simpl in Hall. lia. }
  apply Hcov in Hcv; [|done].
  destruct (Flush_Valid_shape _ _ _ _ _ Hk HF)
    as (Hlow & _ & _ & n & stop & Hn & Hevs & _ & _ & Ht & Hm & _).
  rewrite Hm in Hcv by done. rewrite Ht in Hrange.
  case_bool_decide as Hdrained.
  - destruct stop as [e|]; simpl in Hdrained; [|lia].
    apply (Hok e). rewrite Hevs. apply elem_of_app. right. simpl.
    replace (TipHeight (bc b) + 1 + n) with (Height blk) by lia. left.
  - by rewrite lookup_insert_eq in Hcv.
Qed.

End flush_then_intervals.

(** ** Termination and the order of commits over a run *)

Section termination.
Context {Block Chain : Type} `{!BlockLike Block, !Blockchain Chain Block}.
Implicit Types (b : blockBuffer Block Chain) (evs : list CommitEvent).

Local Arguments u64 : simpl never.

(** X20.  The loop of [Flush] ends, also where the loop counter would wrap:
    with one iteration more than the map has entries once the block is in
    it, [Flush] returns, and allowing more iterations changes nothing. *)
Theorem Flush_terminates b blk fuel :
  (S (base.size (blocks b)) < fuel)%nat →
  ∃ res, Flush_fuel fuel b blk = Some res ∧ Flush b blk = Some res.
Proof.
  intros Hfuel. destruct (Flush_total b blk) as [res Hres].
  exists res. split; [|done].
  unfold Flush in Hres. unfold Flush_fuel in *.
  destruct blk as [x|]; [|done].
  destruct (_ <=? _); [done|].
  destruct (bool_decide _); [done|].
  destruct (_ <? _); [done|].
  unfold flushValid in *.
  destruct (drain (S (S (base.size (blocks b)))) _ _ _) as [rd|] eqn:Hd;
    [|discriminate].
  assert (S (S (base.size (blocks b))) ≤ fuel)%nat as Hle by lia.
  by rewrite (drain_fuel_more _ fuel _ _ _ _ Hle Hd).
Qed.

End termination.

Section intervals_hang.
Context {Block Chain : Type} `{!BlockLike Block, !Blockchain Chain Block}.
Implicit Types (b : blockBuffer Block Chain).

Local Arguments u64 : simpl never.

(** X21.  When the window reaches the largest [uint64] and so does the
    target, the loop of [GetBlocksIntervalsToSync] does not end: its counter
    wraps to 0 and the loop test never fails. *)
Theorem GetBlocksIntervalsToSync_hangs_at_top b fuel :
  TipHeight (bc b) < 2 ^ 64 - 1 →
  u64 (TipHeight (bc b) + size b) = 2 ^ 64 - 1 →
  GetBlocksIntervalsToSync fuel b (2 ^ 64 - 1) = None.
Proof.
  intros Htip Hwin. unfold GetBlocksIntervalsToSync.
  destruct (Z.leb_spec (2 ^ 64 - 1) (TipHeight (bc b))); [lia|].
  rewrite Hwin.
  destruct (Z.ltb_spec (2 ^ 64 - 1) (2 ^ 64 - 1)); [lia|].
  by rewrite scan_max_target_diverges by apply u64_range.
Qed.

End intervals_hang.

Section gapless.
Context {Block Chain : Type} `{!BlockLike Block, !Blockchain Chain Block}.
Context `{!U64Heights Chain Block, !ChainAdvances Chain Block}.
Implicit Types (b : blockBuffer Block Chain) (evs : list CommitEvent).

Lemma committed_heights_app evs1 evs2 :
  committed_heights (evs1 ++ evs2)
  = committed_heights evs1 ++ committed_heights evs2.
Proof. unfold committed_heights. apply omap_app. Qed.

Lemma committed_heights_shape h n stop :
  committed_heights (ok_events h n ++ stop_event (h + n) stop) = seqZ h n.
Proof.
  rewrite committed_heights_app.
  assert (committed_heights (stop_event (h + n) stop) = []) as ->
    by by destruct stop.
  rewrite app_nil_r. unfold ok_events.
  induction (seqZ h n) as [|k l IH]; [done|].
  rewrite fmap_cons. unfold committed_heights in *. simpl. by f_equal.
Qed.

(** X22.  Through the buffer the chain takes blocks in gapless ascending
    order: over any sequence of [Flush] calls the heights at which
    [commitBlock] succeeded are tip+1, tip+2, ..., up to the tip the run
    ends on, each once and in this order. *)
Theorem FlushAll_commits_gapless blks : ∀ b b' rs evs,
  keys_ok b →
  FlushAll b blks = Some (b', rs, evs) →
  ∃ m, 0 ≤ m
       ∧ TipHeight (bc b') = TipHeight (bc b) + m
       ∧ committed_heights evs = seqZ (TipHeight (bc b) + 1) m.
Proof.
  induction blks as [|blk blks IH]; intros b b' rs evs Hk; simpl.
  { intros [= <- <- <-]. exists 0. split_and!; [done|lia|done]. }
  destruct (Flush b blk) as [[[b1 r] evs1]|] eqn:HF; [|discriminate].
  destruct (FlushAll b1 blks) as [[[b2 rs2] evs2]|] eqn:HA; [|discriminate].
  intros [= <- <- <-].
  destruct (Flush_step _ _ _ _ _ Hk HF) as (Hk1 & _).
  destruct (IH _ _ _ _ Hk1 HA) as (m2 & Hm2 & Ht2 & Hc2).
  assert (∃ n, 0 ≤ n ∧ TipHeight (bc b1) = TipHeight (bc b) + n
               ∧ committed_heights evs1 = seqZ (TipHeight (bc b) + 1) n)
    as (n & Hn & Ht1 & Hc1).
  { destruct (Flush_inv _ _ _ _ _ HF) as [(_ & _ & -> & ->)|Hv].
    - exists 0. split_and!; [done|lia|done].
    - destruct Hv as (x & bd & hts & -> & _ & _ & _ & _ & _ & ->).
      destruct (Flush_Valid_shape _ _ _ _ _ Hk HF)
        as (_ & _ & _ & n & stop & Hn & Hevs & _ & _ & Ht & _).
      exists n. split_and!; [done|done|].
      rewrite Hevs. apply committed_heights_shape. }
  exists (n + m2). split_and!; [lia|lia|].
  rewrite committed_heights_app, Hc1, Hc2, Ht1.
  rewrite (seqZ_app _ n m2) by lia. do 2 f_equal. lia.
Qed.

End gapless.


(** ** The buffer on the simulated chain *)

#[export] Instance SimU64 : U64Heights SimChain SimBlock.
Proof. split; intros; apply u64_range. Qed.

#[export] Instance SimAdvances : ChainAdvances SimChain SimBlock.
Proof.
  split.
  - intros c c' blk. unfold commitBlock, TipHeight, Height. simpl.
    destruct (sb_good blk && _); [|discriminate]. by intros [= <-].
  - intros c c' blk e. unfold commitBlock, TipHeight. simpl.
    destruct (sb_good blk && _); [discriminate|]. by intros [= <- _].
Qed.

Lemma keys_ok_buf10 : keys_ok buf10.
Proof. intros h blk. simpl. by rewrite lookup_empty. Qed.

Lemma buffer_ok_buf10 : buffer_ok buf10.
Proof. split; [apply keys_ok_buf10|]. by vm_compute. Qed.

Lemma keys_ok_buf10_pending12 : keys_ok buf10_pending12.
Proof.
  intros h blk. simpl. intros [<- <-]%lookup_singleton_Some.
  split; [reflexivity|lia].
Qed.

Lemma in_window_buf10 : in_window buf10.
Proof. intros h [x Hx]. simpl in Hx. by rewrite lookup_empty in Hx. Qed.

(** The spec's scenario: window 5, tip 10; block 12 waits, block 11 then
    lets 11 and 12 through. *)
Example Flush_scenario :
  Flush buf10 (Some (good 12))
  = Some (buf10_pending12, (false, bCheckinValid), [])
  ∧ Flush buf10_pending12 (Some (good 11))
    = Some (mkBuffer ∅ (mkSimChain 12 [11; 12]) 5 12, (true, bCheckinValid),
            [(11, None); (12, None)]).
Proof. split; by vm_compute. Qed.

(** C1 at a concrete buffer: 12 is pending, the block for 11 arrives and the
    chain refuses it. *)
Lemma Flush_commit_failure_witness :
  keys_ok buf10_pending12
  ∧ Flush buf10_pending12 (Some (bad 11))
    = Some (buf10_pending12, (false, bCheckinValid), [(11, Some (mkError 1))])
  ∧ CommitHeight buf10_pending12 = 10
  ∧ TipHeight (bc buf10_pending12) = 11 - 1
  ∧ blocks buf10_pending12 !! 11 = None
  ∧ blocks buf10_pending12 !! 12 = Some (good 12).
Proof.
  assert (Flush buf10_pending12 (Some (bad 11))
          = Some (buf10_pending12, (false, bCheckinValid),
                  [(11, Some (mkError 1))])) as HF by (by vm_compute).
  destruct (Flush_commit_failure buf10_pending12 (bad 11) buf10_pending12
              (false, bCheckinValid) [(11, Some (mkError 1))] 11 (mkError 1)
              keys_ok_buf10_pending12 HF (list_elem_of_here _ _))
    as (_ & _ & Hch & Ht & Hgone & Hrest).
  split; [exact keys_ok_buf10_pending12|].
  split; [exact HF|].
  split; [exact Hch|].
  split; [exact Ht|].
  split; [exact Hgone|].
  rewrite (Hrest 12) by lia. reflexivity.
Defined.

(** C1 as stated fails: the block whose commit failed is not kept in
    [pending]; it is gone although it was never committed. *)
Lemma Flush_drops_failed_block :
  ¬ (∀ b' r evs h err,
       Flush buf10 (Some (bad 11)) = Some (b', r, evs) →
       (h, Some err) ∈ evs →
       is_Some (blocks b' !! h)).
Proof.
  intros Hclaim.
  destruct (Hclaim buf10 (false, bCheckinValid) [(11, Some (mkError 1))]
              11 (mkError 1)) as [x Hx].
  - by vm_compute.
  - apply list_elem_of_here.
  - simpl in Hx. by rewrite lookup_empty in Hx.
Qed.

(** C2 at a concrete run. *)
Lemma commit_once_after_success_witness :
  keys_ok buf10
  ∧ FlushAll buf10 [Some (good 12); Some (good 11)]
    = Some (mkBuffer ∅ (mkSimChain 12 [11; 12]) 5 12,
            [(false, bCheckinValid); (true, bCheckinValid)],
            [(11, None); (12, None)])
  ∧ NoDup (event_heights [(11, None); (12, None)]).
Proof.
  assert (FlushAll buf10 [Some (good 12); Some (good 11)]
          = Some (mkBuffer ∅ (mkSimChain 12 [11; 12]) 5 12,
                  [(false, bCheckinValid); (true, bCheckinValid)],
                  [(11, None); (12, None)])) as HA by (by vm_compute).
  split; [exact keys_ok_buf10|]. split; [exact HA|].
  apply (proj2 (commit_once_after_success buf10 _ _ _ _ keys_ok_buf10 HA)).
  intros ev Hev.
  apply elem_of_cons in Hev as [->|Hev]; [reflexivity|].
  apply list_elem_of_singleton in Hev as ->. reflexivity.
Defined.

(** C2 as stated fails: a height whose commit failed is passed to
    [commitBlock] again when a block for it is flushed again. *)
Lemma Flush_recommits_failed_height :
  ¬ (∀ b' rs evs,
       FlushAll buf10 [Some (bad 11); Some (good 11)] = Some (b', rs, evs) →
       NoDup (event_heights evs)).
Proof.
  intros Hclaim.
  specialize (Hclaim (mkBuffer ∅ (mkSimChain 11 [11]) 5 11)
                [(false, bCheckinValid); (true, bCheckinValid)]
                [(11, Some (mkError 1)); (11, None)]).
  assert (NoDup (event_heights [(11, Some (mkError 1)); (11, None)])) as Hnd
    by (apply Hclaim; by vm_compute).
  apply NoDup_cons in Hnd as [Hnin _]. apply Hnin. simpl. left.
Qed.

(** C5 at a concrete run. *)
Lemma CommitHeight_monotone_witness :
  buffer_ok buf10
  ∧ CommitHeight buf10 ≤ CommitHeight buf10_pending12
  ∧ CommitHeight buf10_pending12
    ≤ CommitHeight (mkBuffer ∅ (mkSimChain 12 [11; 12]) 5 12 : blockBuffer SimBlock SimChain).
Proof.
  split; [exact buffer_ok_buf10|].
  apply (CommitHeight_monotone buf10 [Some (good 12)] [Some (good 11)]
           buf10_pending12 [(false, bCheckinValid)] []
           (mkBuffer ∅ (mkSimChain 12 [11; 12]) 5 12)
           [(true, bCheckinValid)] [(11, None); (12, None)]
           buffer_ok_buf10); by vm_compute.
Defined.

(** C6 at a concrete buffer: block 12 stays pending and is [Existing] the
    second time. *)
Lemma reflush_after_Valid_witness :
  keys_ok buf10
  ∧ Flush buf10 (Some (good 12))
    = Some (buf10_pending12, (false, bCheckinValid), [])
  ∧ Flush buf10_pending12 (Some (good 12))
    = Some (buf10_pending12, (false, bCheckinExisting), []).
Proof.
  assert (Flush buf10 (Some (good 12))
          = Some (buf10_pending12, (false, bCheckinValid), [])) as HF
    by (by vm_compute).
  split; [exact keys_ok_buf10|]. split; [exact HF|].
  apply (proj1 (reflush_after_Valid buf10 (good 12) buf10_pending12 false []
                  keys_ok_buf10 HF)).
  exists (good 12). reflexivity.
Defined.

(** C6 as stated fails: a block that the first call committed is [Lower],
    not [Existing], the second time. *)
Lemma reflush_committed_is_Lower :
  ¬ (∀ b1 r1 evs1 b2 r2 evs2,
       Flush buf10 (Some (good 11)) = Some (b1, r1, evs1) →
       Flush b1 (Some (good 11)) = Some (b2, r2, evs2) →
       r1.2 = bCheckinValid ∧ r2.2 = bCheckinExisting ∧ b2 = b1).
Proof.
  intros Hclaim.
  destruct (Hclaim (mkBuffer ∅ (mkSimChain 11 [11]) 5 11)
              (true, bCheckinValid) [(11, None)]
              (mkBuffer ∅ (mkSimChain 11 [11]) 5 11)
              (false, bCheckinLower) []) as (_ & Hr2 & _);
    [by vm_compute|by vm_compute|discriminate].
Qed.

(** C3 at concrete buffers, window 5 and tip 10: a block at 16 and one at
    10 on the empty buffer; block 12 again where 12 is pending; block 12 on
    the empty buffer, which is then pending; block 11, which is passed to
    [commitBlock]. *)
Lemma Flush_classification_witness :
  in_window buf10
  ∧ Flush buf10 (Some (good 16)) = Some (buf10, (false, bCheckinHigher), [])
  ∧ Flush buf10 (Some (good 10)) = Some (buf10, (false, bCheckinLower), [])
  ∧ Flush buf10_pending12 (Some (good 12))
    = Some (buf10_pending12, (false, bCheckinExisting), [])
  ∧ (Flush buf10 (Some (good 12))
     = Some (buf10_pending12, (false, bCheckinValid), [])
     ∧ blocks buf10_pending12 !! Height (good 12) = Some (good 12))
  ∧ ∃ b' r rest,
      Flush buf10 (Some (good 11))
      = Some (b', (r, bCheckinValid),
              (Height (good 11), (commitBlock (bc buf10) (good 11)).2) :: rest).
Proof.
  destruct (Flush_classification buf10)
    as (_ & Hlower & _ & _ & Hvalid & Hwindow & _).
  destruct (Flush_classification buf10_pending12)
    as (_ & _ & Hexisting & _).
  split; [exact in_window_buf10|].
  split; [apply Hwindow; [reflexivity|simpl; lia|exact in_window_buf10]|].
  split; [apply Hlower; by vm_compute|].
  split; [apply Hexisting; [by vm_compute|by exists (good 12)]|].
  split.
  - destruct (Hvalid (good 12)) as (_ & b' & r & evs & HF & Hin & _);
      [by vm_compute|reflexivity|by vm_compute|].
    assert (Flush buf10 (Some (good 12))
            = Some (buf10_pending12, (false, bCheckinValid), [])) as Hrun
      by (by vm_compute).
    split; [exact Hrun|].
    rewrite Hrun in HF. injection HF as <- <- <-.
    destruct Hin as [Hin|Hin]; [exact Hin|].
    by apply elem_of_nil in Hin.
  - destruct (Hvalid (good 11)) as (_ & b' & r & evs & HF & _ & Hfirst);
      [by vm_compute|reflexivity|by vm_compute|].
    destruct Hfirst as [rest ->]; [by vm_compute|].
    by exists b', r, rest.
Defined.

(** C4 at a concrete buffer: 12 pending, tip 10, window 5, target 16. *)
Lemma GetBlocksIntervalsToSync_spec_witness :
  GetBlocksIntervalsToSync 6 buf10_pending12 16
  = Some [mkInterval 11 11; mkInterval 13 15]
  ∧ ∃ bi,
      (∀ fuel, (Z.to_nat (size buf10_pending12) < fuel)%nat →
         GetBlocksIntervalsToSync fuel buf10_pending12 16 = Some bi)
      ∧ ascending_disjoint bi
      ∧ ∀ h, covers bi h ↔
             (TipHeight (bc buf10_pending12) + 1 ≤ h
                ≤ Z.min 16 (TipHeight (bc buf10_pending12)
                            + size buf10_pending12)
              ∧ blocks buf10_pending12 !! h = None).
Proof.
  split; [by vm_compute|].
  apply (proj2 (GetBlocksIntervalsToSync_spec buf10_pending12 16));
    by vm_compute.
Defined.

(** C4 as stated fails at window 0, tip 10, nothing pending and target 16:
    the result holds height 10, outside [tip+1, min(target, tip+size)]. *)
Lemma GetBlocksIntervalsToSync_size0 :
  ¬ (∀ fuel bi,
       GetBlocksIntervalsToSync fuel buf10_size0 16 = Some bi →
       ∀ h, covers bi h ↔
            (10 + 1 ≤ h ≤ Z.min 16 (10 + 0)
             ∧ blocks buf10_size0 !! h = None)).
Proof.
  intros Hclaim.
  assert (GetBlocksIntervalsToSync 1 buf10_size0 16
          = Some [mkInterval 10 10]) as Hrun by (by vm_compute).
  destruct (proj1 (Hclaim _ _ Hrun 10)) as [Hh _]; [|lia].
  exists (mkInterval 10 10). split; [apply list_elem_of_here|simpl; lia].
Qed.

(** ** More runs on the simulated chain *)

Lemma in_window_buf10_pending12 : in_window buf10_pending12.
Proof.
  intros h [x Hx]. simpl in Hx.
  apply lookup_singleton_Some in Hx as [<- _]. by vm_compute.
Qed.

Lemma above_tip_buf10 : above_tip buf10.
Proof. intros h [x Hx]. simpl in Hx. by rewrite lookup_empty in Hx. Qed.

Lemma Flush_buf10_pending12_good11 :
  Flush buf10_pending12 (Some (good 11))
  = Some (buf12, (true, bCheckinValid),
          [(11, None); (12, None)]).
Proof. by vm_compute. Qed.

(** X1 when block 11 arrives with 12 pending. *)
Lemma Flush_commits_in_order_witness :
  ∃ n stop,
    0 ≤ n
    ∧ [(11, None); (12, None)]
      = ok_events (TipHeight (bc buf10_pending12) + 1) n
        ++ stop_event (TipHeight (bc buf10_pending12) + 1 + n) stop
    ∧ event_heights [(11, None); (12, None)]
      = seqZ (TipHeight (bc buf10_pending12) + 1) (n + stop_len stop)
    ∧ n + stop_len stop ≤ size buf10_pending12
    ∧ TipHeight (bc buf12)
      = TipHeight (bc buf10_pending12) + n
    ∧ (∀ k, TipHeight (bc buf10_pending12) < k
            ≤ TipHeight (bc buf10_pending12) + n →
         blocks buf12 !! k = None).
Proof.
  apply (Flush_commits_in_order buf10_pending12 (Some (good 11)) buf12
           (true, bCheckinValid) [(11, None); (12, None)]
           keys_ok_buf10_pending12).
  - simpl. lia.
  - exact Flush_buf10_pending12_good11.
Defined.

(** X2 at the same call. *)
Lemma Flush_flag_iff_committed_witness :
  true = true
  ↔ (Height (good 11), None) ∈ ([(11, None); (12, None)] : list CommitEvent).
Proof.
  apply (Flush_flag_iff_committed buf10_pending12 (good 11) buf12 true
           bCheckinValid [(11, None); (12, None)] keys_ok_buf10_pending12).
  - simpl. lia.
  - by vm_compute.
  - exact Flush_buf10_pending12_good11.
Defined.

(** X3 at the same call: nothing is left at 13. *)
Lemma Flush_leaves_no_ready_block_witness :
  blocks buf12
    !! (TipHeight (bc buf12) + 1) = None.
Proof.
  apply (Flush_leaves_no_ready_block buf10_pending12 (good 11) buf12 true
           [(11, None); (12, None)] keys_ok_buf10_pending12
           in_window_buf10_pending12).
  - simpl. lia.
  - by vm_compute.
  - exact Flush_buf10_pending12_good11.
Defined.

(** X4 at the same call. *)
Lemma CommitHeight_is_tip_after_commit_witness :
  CommitHeight buf12
  = TipHeight (bc buf12).
Proof.
  apply (CommitHeight_is_tip_after_commit buf10_pending12 (Some (good 11))
           buf12 (true, bCheckinValid) [(11, None); (12, None)] 11
           keys_ok_buf10_pending12 Flush_buf10_pending12_good11).
  apply list_elem_of_here.
Defined.

(** X5 on the run of the two blocks. *)
Lemma FlushAll_pending_bounded_witness :
  size buf12
  = size buf10
  ∧ len (blocks buf12)
    ≤ size buf12.
Proof.
  destruct (FlushAll_pending_bounded [Some (good 12); Some (good 11)] buf10
              buf12
              [(false, bCheckinValid); (true, bCheckinValid)]
              [(11, None); (12, None)]
              keys_ok_buf10 above_tip_buf10 in_window_buf10)
    as (Hsize & _ & _ & _ & Hlen).
  - simpl. lia.
  - by vm_compute.
  - split; [exact Hsize|exact Hlen].
Defined.

(** X6: block 14 arrives with 12 pending; 12 is not touched. *)
Lemma Flush_keeps_untouched_witness :
  blocks buf10_pending12_14 !! 12
  = blocks buf10_pending12 !! 12.
Proof.
  apply (Flush_keeps_untouched buf10_pending12 (good 14) buf10_pending12_14
           (false, bCheckinValid) [] 12 keys_ok_buf10_pending12).
  - by vm_compute.
  - by vm_compute.
  - by vm_compute.
  - intros Hin. by apply elem_of_nil in Hin.
Defined.


Lemma intervals_buf10_pending12 :
  GetBlocksIntervalsToSync 6 buf10_pending12 16
  = Some [mkInterval 11 11; mkInterval 13 15].
Proof. by vm_compute. Qed.



(** X10: block 12 was accepted; it is not in the intervals reported next. *)
Lemma accepted_block_not_requested_witness :
  ¬ covers [mkInterval 11 11; mkInterval 13 15] (Height (good 12)).
Proof.
  apply (accepted_block_not_requested buf10 (good 12) buf10_pending12 false
           [] 6 16 [mkInterval 11 11; mkInterval 13 15] keys_ok_buf10).
  - by vm_compute.
  - intros err Hin. by apply elem_of_nil in Hin.
  - by vm_compute.
  - by vm_compute.
  - by vm_compute.
  - exact intervals_buf10_pending12.
Defined.


(** X20 on an empty buffer. *)
Lemma Flush_terminates_witness :
  ∃ res, Flush_fuel 7 buf10 (Some (good 11)) = Some res
         ∧ Flush buf10 (Some (good 11)) = Some res.
Proof.
  apply (Flush_terminates buf10 (Some (good 11)) 7). vm_compute. lia.
Defined.

(** X21 with tip 2^64-6 and window 5. *)
Lemma GetBlocksIntervalsToSync_hangs_at_top_witness :
  GetBlocksIntervalsToSync 1000 buf_top (2 ^ 64 - 1) = None.
Proof.
  apply (GetBlocksIntervalsToSync_hangs_at_top buf_top 1000); by vm_compute.
Defined.

(** X22 on the run of blocks 12 and 11. *)
Lemma FlushAll_commits_gapless_witness :
  ∃ m, 0 ≤ m
       ∧ TipHeight (bc buf12) = TipHeight (bc buf10) + m
       ∧ committed_heights [(11, None); (12, None)]
         = seqZ (TipHeight (bc buf10) + 1) m.
Proof.
  apply (FlushAll_commits_gapless [Some (good 12); Some (good 11)] buf10
           buf12 [(false, bCheckinValid); (true, bCheckinValid)]
           [(11, None); (12, None)] keys_ok_buf10).
  by vm_compute.
Defined.


(** ** Package rolldpos2 *)

Module rolldpos2_facts.
Import rolldpos2.

Section ctx_facts.
Context {Chain P : Type} `{!Blockchain Chain, !Pool P}.
Implicit Types (ctx : rollDPoSCtx Chain P).

Local Arguments u64 : simpl never.

(** [getNumSubEpochs] is max(configured, 1). *)
Lemma getNumSubEpochs_max ctx :
  getNumSubEpochs ctx = Z.max (NumSubEpochs (cfg ctx)) 1.
Proof.
  unfold getNumSubEpochs. destruct (Z.ltb_spec 0 (NumSubEpochs (cfg ctx))); lia.
Qed.

(** The product of two [uint64] factors that does not overflow. *)
Lemma epochLength_small n s :
  1 ≤ n → 1 ≤ s → n * s < 2 ^ 64 → epochLength n s = n * s.
Proof.
  intros Hn Hs Hns. unfold epochLength.
  rewrite (u64_small n) by (unfold is_u64; nia).
  rewrite (u64_small s) by (unfold is_u64; nia).
  apply u64_small. unfold is_u64. nia.
Qed.

(** A chain error is handed on unchanged. *)
Lemma rotatedProposer_chain_error ctx tip err :
  TipHeight (chain ctx) = (tip, Some err) →
  rotatedProposer ctx = Returns (EmptyString, 0, Some err).
Proof. intros Ht. unfold rotatedProposer. by rewrite Ht. Qed.

(** C7.  With the tip read from the chain, [rotatedProposer] fails with
    [ErrZeroDelegate] exactly when the delegate list is empty, and
    otherwise returns the delegate at index (tip+1) mod numDelegates
    together with tip+1 (computed in [uint64], so it is the plain tip + 1
    below the largest [uint64]); the result depends on the tip and the
    delegate list only: two contexts that agree on both return the same. *)
Theorem rotatedProposer_spec ctx tip :
  TipHeight (chain ctx) = (tip, None) →
  Z.of_nat (length (delegates (epoch ctx))) < 2 ^ 63 →
  let next := u64 (tip + 1) in
  let ds := delegates (epoch ctx) in
  ((∃ d h, rotatedProposer ctx = Returns (d, h, Some ErrZeroDelegate))
     ↔ ds = [])
  ∧ (ds ≠ [] →
     ∃ d, ds !! Z.to_nat (next mod Z.of_nat (length ds)) = Some d
          ∧ rotatedProposer ctx = Returns (d, next, None))
  ∧ (is_u64 tip → tip < 2 ^ 64 - 1 → next = tip + 1)
  ∧ (∀ ctx' : rollDPoSCtx Chain P,
       TipHeight (chain ctx') = TipHeight (chain ctx) →
       delegates (epoch ctx') = ds →
       rotatedProposer ctx' = rotatedProposer ctx).
Proof.
  intros Ht Hlen next ds.
  assert (ds ≠ [] →
          ∃ d, ds !! Z.to_nat (next mod Z.of_nat (length ds)) = Some d
               ∧ rotatedProposer ctx = Returns (d, next, None)) as Hsome.
  { intros Hne. unfold rotatedProposer. rewrite Ht. fold next ds.
    fold ds in Hlen. clearbody ds next.
    assert (length ds ≠ 0%nat) as Hlen0
      by (intros H0; by apply Hne, nil_length_inv).
    assert (0 < Z.of_nat (length ds)) as Hpos by lia.
    destruct (Z.eqb_spec (Z.of_nat (length ds)) 0); [lia|].
    rewrite (u64_small (Z.of_nat (length ds))) by (unfold is_u64; lia).
    pose proof (Z.mod_pos_bound next (Z.of_nat (length ds)) Hpos) as Hidx.
    destruct (lookup_lt_is_Some_2 ds
                (Z.to_nat (next mod Z.of_nat (length ds)))) as [d Hd];
      [lia|].
    exists d. by rewrite Hd. }
  split_and!.
  - split.
    + intros (d & h & Hr). destruct ds as [|d0 ds'] eqn:Hds; [done|].
      destruct Hsome as (d' & _ & Hr'); [done|]. congruence.
    + intros Hnil. exists EmptyString, 0. unfold rotatedProposer.
      rewrite Ht. fold ds. by rewrite Hnil.
  - done.
  - intros Hu Hmax. apply u64_small. unfold is_u64 in *. lia.
  - intros ctx' Ht' Hds'. unfold rotatedProposer. by rewrite Ht', Hds'.
Qed.

(** C9.  With the tip and the number of delegates read from the
    collaborators, and [numSubEpochs] = max(configured, 1):
    [calcEpochNumAndHeight] returns
    epochNumber = tip / (numDelegates * numSubEpochs) + 1 and
    epochStartHeight = numDelegates * numSubEpochs * (epochNumber - 1) + 1,
    computed in [uint64] whenever the divisor is not zero, which are the
    plain values when nothing overflows; a configured 0 counts as 1; with
    configured 0, 24 delegates and tip 0 the result is (1, 1). *)
Theorem calcEpochNumAndHeight_spec ctx tip numDlgs :
  TipHeight (chain ctx) = (tip, None) →
  NumDelegatesPerEpoch (pool ctx) = (numDlgs, None) →
  let numSubEpochs := Z.max (NumSubEpochs (cfg ctx)) 1 in
  getNumSubEpochs ctx = numSubEpochs
  ∧ (let len := epochLength numDlgs numSubEpochs in
     len ≠ 0 →
     let epochNumber := u64 (tip / len + 1) in
     calcEpochNumAndHeight ctx
     = Returns (epochNumber, u64 (u64 (len * u64 (epochNumber - 1)) + 1),
                None))
  ∧ (is_u64 tip → tip < 2 ^ 64 - 1 →
     1 ≤ numDlgs → numDlgs * numSubEpochs < 2 ^ 64 →
     let epochNumber := tip / (numDlgs * numSubEpochs) + 1 in
     calcEpochNumAndHeight ctx
     = Returns (epochNumber,
                numDlgs * numSubEpochs * (epochNumber - 1) + 1, None))
  ∧ (∀ ds, calcEpochNumAndHeight (fixedCtx 0 0 24 ds)
           = Returns (1, 1, None)).
Proof.
  intros Ht Hn numSubEpochs.
  pose proof (getNumSubEpochs_max ctx) as Hsub. fold numSubEpochs in Hsub.
  assert (let len := epochLength numDlgs numSubEpochs in
          len ≠ 0 →
          let epochNumber := u64 (tip / len + 1) in
          calcEpochNumAndHeight ctx
          = Returns (epochNumber,
                     u64 (u64 (len * u64 (epochNumber - 1)) + 1), None))
    as Hgen.
  { intros len Hlen epochNumber. unfold calcEpochNumAndHeight.
    rewrite Ht, Hn, Hsub. fold len.
    by destruct (Z.eqb_spec len 0). }
  split_and!.
  - done.
  - done.
  - intros Hu Hmax Hdl Hprod epochNumber.
    assert (1 ≤ numSubEpochs) as Hs by (unfold numSubEpochs; lia).
    pose proof (epochLength_small _ _ Hdl Hs Hprod) as Hlen.
    simpl in Hgen. rewrite Hlen in Hgen.
    rewrite Hgen by nia. fold epochNumber.
    set (len := numDlgs * numSubEpochs) in *.
    assert (0 < len) as Hpos by (unfold len; nia).
    assert (0 ≤ tip / len) as Hq0 by (apply Z.div_pos; unfold is_u64 in *; lia).
    assert (len * (tip / len) ≤ tip) as Hq
      by (apply Z.mul_div_le; lia).
    assert (tip / len ≤ tip) as Hq1
      by (apply Z.div_le_upper_bound; unfold is_u64 in *; nia).
    rewrite (u64_small epochNumber) by (unfold epochNumber, is_u64 in *; lia).
    replace (epochNumber - 1) with (tip / len) by (unfold epochNumber; lia).
    rewrite (u64_small (tip / len)) by (unfold is_u64 in *; lia).
    rewrite (u64_small (len * (tip / len))) by (unfold is_u64 in *; nia).
    rewrite (u64_small (len * (tip / len) + 1)) by (unfold is_u64 in *; nia).
    done.
  - intros ds. by vm_compute.
Qed.

(** C10, as the code has it.  [getNumSubEpochs] is at least 1, so for
    n ≥ 1 delegates the divisor of [calcEpochNumAndHeight] is not zero as
    long as the product n * numSubEpochs does not overflow [uint64], in
    particular when both n and the configured value fit in 32 bits; for
    n = 0 the divisor is zero and the call panics. *)
Theorem epochLength_nonzero ctx tip n :
  TipHeight (chain ctx) = (tip, None) →
  NumDelegatesPerEpoch (pool ctx) = (n, None) →
  1 ≤ getNumSubEpochs ctx
  ∧ (1 ≤ n → n * getNumSubEpochs ctx < 2 ^ 64 →
     epochLength n (getNumSubEpochs ctx) ≠ 0
     ∧ ∃ r, calcEpochNumAndHeight ctx = Returns r)
  ∧ (1 ≤ n < 2 ^ 32 → NumSubEpochs (cfg ctx) < 2 ^ 32 →
     n * getNumSubEpochs ctx < 2 ^ 64)
  ∧ (n = 0 →
     epochLength n (getNumSubEpochs ctx) = 0
     ∧ calcEpochNumAndHeight ctx = Panics).
Proof.
  intros Ht Hn.
  assert (1 ≤ getNumSubEpochs ctx) as Hs by (rewrite getNumSubEpochs_max; lia).
  split_and!.
  - done.
  - intros Hn1 Hprod.
    pose proof (epochLength_small _ _ Hn1 Hs Hprod) as Hlen.
    split; [rewrite Hlen; nia|].
    unfold calcEpochNumAndHeight. rewrite Ht, Hn.
    destruct (Z.eqb_spec (epochLength n (getNumSubEpochs ctx)) 0); [nia|].
    by eexists.
  - intros Hn1 Hcfg. rewrite getNumSubEpochs_max. nia.
  - intros ->. assert (epochLength 0 (getNumSubEpochs ctx) = 0) as Hz
      by reflexivity.
    split; [done|].
    unfold calcEpochNumAndHeight. by rewrite Ht, Hn, Hz.
Qed.

End ctx_facts.

(** *** More on the rotation and the epochs *)

Section ctx_more.
Context {Chain P : Type} `{!Blockchain Chain, !Pool P}.
Implicit Types (ctx : rollDPoSCtx Chain P).

Local Arguments u64 : simpl never.

(** The proposer at a tip below the largest [uint64]. *)
Lemma rotatedProposer_at ctx tip d :
  TipHeight (chain ctx) = (tip, None) →
  is_u64 tip → tip < 2 ^ 64 - 1 →
  Z.of_nat (length (delegates (epoch ctx))) < 2 ^ 64 →
  delegates (epoch ctx)
    !! Z.to_nat ((tip + 1) mod Z.of_nat (length (delegates (epoch ctx))))
  = Some d →
  rotatedProposer ctx = Returns (d, tip + 1, None).
Proof.
  intros Ht Hu Hmax Hlen Hd. unfold rotatedProposer. rewrite Ht.
  rewrite (u64_small (tip + 1)) by (unfold is_u64 in *; lia).
  rewrite (u64_small (Z.of_nat _)) by (unfold is_u64; lia).
  destruct (Z.eqb_spec (Z.of_nat (length (delegates (epoch ctx)))) 0)
    as [Hz|Hnz].
  - rewrite Hz in Hd. apply lookup_lt_Some in Hd. lia.
  - by rewrite Hd.
Qed.

(** X11.  [rotatedProposer] never panics: the index it computes is within
    the delegate list; and a proposer it returns is a member of that list,
    together with the height after the tip. *)
Theorem rotatedProposer_in_delegates ctx :
  Z.of_nat (length (delegates (epoch ctx))) < 2 ^ 63 →
  rotatedProposer ctx ≠ Panics
  ∧ ∀ d h, rotatedProposer ctx = Returns (d, h, None) →
      d ∈ delegates (epoch ctx)
      ∧ ∃ tip, TipHeight (chain ctx) = (tip, None) ∧ h = u64 (tip + 1).
Proof.
  intros Hlen. unfold rotatedProposer.
  destruct (TipHeight (chain ctx)) as [tip [err|]]; [split; [done|]|].
  { intros d h [=]. }
  set (ds := delegates (epoch ctx)) in *.
  destruct (Z.eqb_spec (Z.of_nat (length ds)) 0) as [Hz|Hnz].
  { split; [done|]. intros d h [=]. }
  rewrite (u64_small (Z.of_nat _)) by (unfold is_u64; lia).
  pose proof (Z.mod_pos_bound (u64 (tip + 1)) (Z.of_nat (length ds))
                ltac:(lia)) as Hidx.
  destruct (lookup_lt_is_Some_2 ds
              (Z.to_nat (u64 (tip + 1) mod Z.of_nat (length ds)))) as [d Hd];
    [lia|].
  rewrite Hd. split; [done|]. intros d' h [= <- <-]. split.
  - by eapply list_elem_of_lookup_2.
  - by exists tip.
Qed.

(** X12.  The rotation is a round robin over the delegate list [ds]: within
    any [length ds] consecutive tips every delegate is the proposer at one
    of them, and the proposer at a tip is the proposer again [length ds]
    heights later. *)
Theorem rotatedProposer_round_robin (ds : list string) (t0 : Z) :
  is_u64 t0 → t0 + Z.of_nat (length ds) < 2 ^ 64 - 1 →
  (∀ i d, ds !! i = Some d →
     ∃ k, 0 ≤ k < Z.of_nat (length ds)
          ∧ ∀ ctx, delegates (epoch ctx) = ds →
              TipHeight (chain ctx) = (t0 + k, None) →
              rotatedProposer ctx = Returns (d, t0 + k + 1, None))
  ∧ (∀ ctx1 ctx2 d h,
       delegates (epoch ctx1) = ds → delegates (epoch ctx2) = ds →
       TipHeight (chain ctx1) = (t0, None) →
       TipHeight (chain ctx2) = (t0 + Z.of_nat (length ds), None) →
       rotatedProposer ctx1 = Returns (d, h, None) →
       rotatedProposer ctx2 = Returns (d, h + Z.of_nat (length ds), None)).
Proof.
  intros Hu Hsum. set (n := Z.of_nat (length ds)) in *. split.
  - intros i d Hd. pose proof (lookup_lt_Some _ _ _ Hd) as Hi.
    assert (0 < n) as Hn by (unfold n; lia).
    exists ((Z.of_nat i - t0 - 1) mod n).
    pose proof (Z.mod_pos_bound (Z.of_nat i - t0 - 1) n Hn) as Hk.
    split; [done|]. intros ctx Hds Ht.
    apply (rotatedProposer_at ctx (t0 + (Z.of_nat i - t0 - 1) mod n) d Ht);
      [unfold is_u64 in *; lia|lia|rewrite Hds; fold n; unfold is_u64 in *; lia|].
    rewrite Hds. fold n.
    replace (t0 + (Z.of_nat i - t0 - 1) mod n + 1)
      with ((Z.of_nat i - t0 - 1) mod n + (t0 + 1)) by lia.
    rewrite Z.add_mod_idemp_l by lia.
    replace (Z.of_nat i - t0 - 1 + (t0 + 1)) with (Z.of_nat i) by lia.
    rewrite Z.mod_small by (unfold n; lia). by rewrite Nat2Z.id.
  - intros ctx1 ctx2 d h Hds1 Hds2 Ht1 Ht2 Hr.
    unfold rotatedProposer in Hr. rewrite Ht1, Hds1 in Hr. fold n in Hr.
    rewrite (u64_small (t0 + 1)) in Hr by (unfold is_u64 in *; lia).
    destruct (Z.eqb_spec n 0) as [|Hnz]; [done|].
    rewrite (u64_small n) in Hr by (unfold is_u64, n in *; lia).
    destruct (ds !! Z.to_nat ((t0 + 1) mod n)) as [d'|] eqn:Hd; [|done].
    injection Hr as <- <-.
    replace (t0 + 1 + n) with (t0 + n + 1) by lia.
    apply (rotatedProposer_at ctx2 (t0 + n) d' Ht2);
      [unfold is_u64 in *; unfold n in *; lia|lia
      |rewrite Hds2; fold n; unfold is_u64 in *; lia|].
    rewrite Hds2. fold n.
    replace (t0 + n + 1) with (t0 + 1 + 1 * n) by lia.
    by rewrite Z.mod_add by lia.
Qed.

(** The result of [calcEpochNumAndHeight] when nothing overflows, with [len]
    the number of heights of an epoch. *)
Lemma calcEpochNumAndHeight_plain ctx tip n :
  TipHeight (chain ctx) = (tip, None) →
  NumDelegatesPerEpoch (pool ctx) = (n, None) →
  is_u64 tip → tip < 2 ^ 64 - 1 →
  1 ≤ n → n * getNumSubEpochs ctx < 2 ^ 64 →
  let len := n * getNumSubEpochs ctx in
  calcEpochNumAndHeight ctx
  = Returns (tip / len + 1, len * (tip / len) + 1, None).
Proof.
  intros Ht Hn Hu Hmax Hn1 Hprod len.
  assert (1 ≤ getNumSubEpochs ctx) as Hs by (rewrite getNumSubEpochs_max; lia).
  pose proof (epochLength_small _ _ Hn1 Hs Hprod) as Hlen. fold len in Hlen.
  assert (0 < len) as Hpos by (unfold len; nia).
  unfold calcEpochNumAndHeight. rewrite Ht, Hn, Hlen.
  destruct (Z.eqb_spec len 0); [lia|].
  assert (0 ≤ tip / len) as Hq0 by (apply Z.div_pos; unfold is_u64 in *; lia).
  assert (len * (tip / len) ≤ tip) as Hq by (apply Z.mul_div_le; lia).
  assert (tip / len ≤ tip) as Hq1
    by (apply Z.div_le_upper_bound; unfold is_u64 in *; nia).
  rewrite (u64_small (tip / len + 1)) by (unfold is_u64 in *; lia).
  replace (tip / len + 1 - 1) with (tip / len) by lia.
  rewrite (u64_small (tip / len)) by (unfold is_u64 in *; lia).
  rewrite (u64_small (len * (tip / len))) by (unfold is_u64 in *; nia).
  rewrite (u64_small (len * (tip / len) + 1)) by (unfold is_u64 in *; nia).
  done.
Qed.

(** X13.  The epoch returned is the one that holds the next block: the
    height after the tip lies between the epoch's start height and its last
    height; epochs are numbered from 1 and start at heights 1, 1 + len,
    1 + 2 len, ... *)
Theorem calcEpochNumAndHeight_holds_next_height ctx tip n :
  TipHeight (chain ctx) = (tip, None) →
  NumDelegatesPerEpoch (pool ctx) = (n, None) →
  is_u64 tip → tip < 2 ^ 64 - 1 →
  1 ≤ n → n * getNumSubEpochs ctx < 2 ^ 64 →
  let len := n * getNumSubEpochs ctx in
  ∃ epochNum epochHeight,
    calcEpochNumAndHeight ctx = Returns (epochNum, epochHeight, None)
    ∧ 1 ≤ epochNum
    ∧ epochHeight = len * (epochNum - 1) + 1
    ∧ epochHeight ≤ tip + 1 < epochHeight + len.
Proof.
  intros Ht Hn Hu Hmax Hn1 Hprod len.
  assert (1 ≤ getNumSubEpochs ctx) as Hs by (rewrite getNumSubEpochs_max; lia).
  assert (0 < len) as Hpos by (unfold len; nia).
  exists (tip / len + 1), (len * (tip / len) + 1).
  split; [by apply calcEpochNumAndHeight_plain|].
  assert (0 ≤ tip / len) as Hq0 by (apply Z.div_pos; unfold is_u64 in *; lia).
  pose proof (Z.div_mod tip len ltac:(lia)) as Hdm.
  pose proof (Z.mod_pos_bound tip len Hpos) as Hm.
  split_and!; [lia|f_equal; f_equal; lia|lia|lia].
Qed.

(** X14.  One epoch later: when the tip has advanced by the length of an
    epoch, the epoch number is one more and the start height is one epoch
    length further; and the epoch number and start height never go back
    when the tip advances. *)
Theorem calcEpochNumAndHeight_advance ctx1 ctx2 tip1 tip2 n e1 h1 :
  TipHeight (chain ctx1) = (tip1, None) →
  TipHeight (chain ctx2) = (tip2, None) →
  NumDelegatesPerEpoch (pool ctx1) = (n, None) →
  NumDelegatesPerEpoch (pool ctx2) = (n, None) →
  cfg ctx2 = cfg ctx1 →
  is_u64 tip1 → tip1 ≤ tip2 → tip2 < 2 ^ 64 - 1 →
  1 ≤ n → n * getNumSubEpochs ctx1 < 2 ^ 64 →
  calcEpochNumAndHeight ctx1 = Returns (e1, h1, None) →
  let len := n * getNumSubEpochs ctx1 in
  ∃ e2 h2,
    calcEpochNumAndHeight ctx2 = Returns (e2, h2, None)
    ∧ e1 ≤ e2 ∧ h1 ≤ h2
    ∧ (tip2 = tip1 + len → e2 = e1 + 1 ∧ h2 = h1 + len).
Proof.
  intros Ht1 Ht2 Hn1 Hn2 Hcfg Hu Hle Hmax Hn Hprod Hr1 len.
  assert (getNumSubEpochs ctx2 = getNumSubEpochs ctx1) as Hsub
    by (unfold getNumSubEpochs; by rewrite Hcfg).
  assert (1 ≤ getNumSubEpochs ctx1) as Hs by (rewrite getNumSubEpochs_max; lia).
  assert (0 < len) as Hpos by (unfold len; nia).
  rewrite (calcEpochNumAndHeight_plain ctx1 tip1 n) in Hr1
    by (done || lia).
  injection Hr1 as <- <-. fold len.
  exists (tip2 / len + 1), (len * (tip2 / len) + 1). split.
  - rewrite (calcEpochNumAndHeight_plain ctx2 tip2 n);
      rewrite ?Hsub; try done; unfold is_u64 in *; lia.
  - pose proof (Z.div_le_mono tip1 tip2 len Hpos Hle) as Hdiv.
    split_and!; [lia|nia|].
    intros ->. replace (tip1 + len) with (tip1 + 1 * len) by lia.
    rewrite Z.div_add by lia. lia.
Qed.

(** X15.  A failing collaborator never makes [calcEpochNumAndHeight] panic:
    the error of the chain, or else of the delegate pool, is returned with
    zero results before the division is reached - also when the pool
    reports a failure together with zero delegates. *)
Theorem calcEpochNumAndHeight_collaborator_error ctx tip n errc errp :
  (TipHeight (chain ctx) = (tip, Some errc) →
     calcEpochNumAndHeight ctx = Returns (0, 0, Some errc))
  ∧ (TipHeight (chain ctx) = (tip, None) →
     NumDelegatesPerEpoch (pool ctx) = (n, Some errp) →
     calcEpochNumAndHeight ctx = Returns (0, 0, Some errp))
  ∧ (∀ r, calcEpochNumAndHeight ctx = Returns (r, None) →
       ∃ tip' n', TipHeight (chain ctx) = (tip', None)
                  ∧ NumDelegatesPerEpoch (pool ctx) = (n', None)
                  ∧ epochLength n' (getNumSubEpochs ctx) ≠ 0).
Proof.
  unfold calcEpochNumAndHeight. split_and!.
  - by intros ->.
  - by intros -> ->.
  - intros r.
    destruct (TipHeight (chain ctx)) as [tip' [e|]]; [intros [=]|].
    destruct (NumDelegatesPerEpoch (pool ctx)) as [n' [e|]]; [intros [=]|].
    destruct (Z.eqb_spec (epochLength n' (getNumSubEpochs ctx)) 0);
      [intros [=]|].
    intros _. by exists tip', n'.
Qed.

(** X16.  Every epoch opens with the same delegate: at the start height
    that [calcEpochNumAndHeight] returns, [rotatedProposer] picks the
    delegate at index 1 mod n of a list of n = numDelegates delegates,
    whatever the epoch. *)
Theorem epoch_first_proposer ctx ctx' tip e h d :
  let ds := delegates (epoch ctx') in
  let n := Z.of_nat (length ds) in
  TipHeight (chain ctx) = (tip, None) →
  NumDelegatesPerEpoch (pool ctx) = (n, None) →
  is_u64 tip → tip < 2 ^ 64 - 1 →
  n * getNumSubEpochs ctx < 2 ^ 64 →
  calcEpochNumAndHeight ctx = Returns (e, h, None) →
  TipHeight (chain ctx') = (h - 1, None) →
  ds !! Z.to_nat (1 mod n) = Some d →
  rotatedProposer ctx' = Returns (d, h, None).
Proof.
  intros ds n Ht Hn Hu Hmax Hprod Hr Ht' Hd.
  pose proof (lookup_lt_Some _ _ _ Hd) as Hlt.
  assert (1 ≤ n) as Hn1 by (unfold n; lia).
  assert (1 ≤ getNumSubEpochs ctx) as Hs by (rewrite getNumSubEpochs_max; lia).
  rewrite (calcEpochNumAndHeight_plain ctx tip n) in Hr by (done || lia).
  injection Hr as <- <-.
  set (s := getNumSubEpochs ctx) in *.
  assert (0 ≤ tip / (n * s))
    by (apply Z.div_pos; unfold is_u64 in *; nia).
  assert (n * s * (tip / (n * s)) ≤ tip)
    by (apply Z.mul_div_le; nia).
  replace (n * s * (tip / (n * s)) + 1)
    with (n * s * (tip / (n * s)) + 1 - 1 + 1) by lia.
  apply rotatedProposer_at; try done.
  - unfold is_u64 in *. lia.
  - lia.
  - fold ds n. nia.
  - fold ds n.
    replace (n * s * (tip / (n * s)) + 1 - 1 + 1)
      with (1 + (s * (tip / (n * s))) * n) by lia.
    by rewrite Z.mod_add by lia.
Qed.

End ctx_more.

(** C7 at a concrete context. *)
Lemma rotatedProposer_spec_witness :
  rotatedProposer (fixedCtx 1 9 3 ["A"; "B"; "C"]%string)
  = Returns ("B"%string, 10, None).
Proof.
  destruct (rotatedProposer_spec (fixedCtx 1 9 3 ["A"; "B"; "C"]%string) 9
              (eq_refl (9, None)) eq_refl) as (_ & Hsome & _).
  destruct Hsome as (d & Hd & Hr); [discriminate|].
  vm_compute in Hd. injection Hd as <-. exact Hr.
Defined.

(** C8 as stated fails: 8 mod 3 is 2 and the delegate at index 2 is C. *)
Lemma rotatedProposer_example_not_B :
  rotatedProposer (fixedCtx 1 7 3 ["A"; "B"; "C"]%string)
  ≠ Returns ("B"%string, 8, None).
Proof. by vm_compute. Qed.

(** C8, as the code has it: with delegates [A, B, C] and tip 7 the proposer
    is (C, 8). *)
Theorem rotatedProposer_example :
  rotatedProposer (fixedCtx 1 7 3 ["A"; "B"; "C"]%string)
  = Returns ("C"%string, 8, None).
Proof. by vm_compute. Qed.

(** C9 at the spec's example. *)
Lemma calcEpochNumAndHeight_spec_witness :
  getNumSubEpochs (fixedCtx 0 0 24 []) = 1
  ∧ calcEpochNumAndHeight (fixedCtx 0 0 24 []) = Returns (1, 1, None).
Proof.
  assert (TipHeight (chain (fixedCtx 0 0 24 [])) = (0, None)) as Ht
    by reflexivity.
  assert (NumDelegatesPerEpoch (pool (fixedCtx 0 0 24 [])) = (24, None)) as Hn
    by reflexivity.
  destruct (calcEpochNumAndHeight_spec (fixedCtx 0 0 24 []) 0 24 Ht Hn)
    as (Hsub & _ & Hplain & _).
  split; [exact Hsub|].
  apply Hplain; by vm_compute.
Defined.

(** C10 as stated fails on a 64-bit [uint]: 2 delegates and 2^63
    sub-epochs multiply to 2^64, which is 0 in [uint64]. *)
Lemma epochLength_overflow_zero :
  1 ≤ 2
  ∧ getNumSubEpochs (fixedCtx (2 ^ 63) 0 2 []) = 2 ^ 63
  ∧ epochLength 2 (getNumSubEpochs (fixedCtx (2 ^ 63) 0 2 [])) = 0
  ∧ calcEpochNumAndHeight (fixedCtx (2 ^ 63) 0 2 []) = Panics.
Proof. split; [lia|]. split; [|split]; by vm_compute. Qed.

(** C10 at a concrete context. *)
Lemma epochLength_nonzero_witness :
  epochLength 24 (getNumSubEpochs (fixedCtx 0 0 24 [])) ≠ 0
  ∧ ∃ r, calcEpochNumAndHeight (fixedCtx 0 0 24 []) = Returns r.
Proof.
  assert (TipHeight (chain (fixedCtx 0 0 24 [])) = (0, None)) as Ht
    by reflexivity.
  assert (NumDelegatesPerEpoch (pool (fixedCtx 0 0 24 [])) = (24, None)) as Hn
    by reflexivity.
  apply (proj1 (proj2 (epochLength_nonzero (fixedCtx 0 0 24 []) 0 24 Ht Hn)));
    by vm_compute.
Defined.

(** X11 at a concrete context. *)
Lemma rotatedProposer_in_delegates_witness :
  rotatedProposer (fixedCtx 1 9 3 ["A"; "B"; "C"]%string) ≠ Panics
  ∧ ("B"%string ∈ delegates (epoch (fixedCtx 1 9 3 ["A"; "B"; "C"]%string))).
Proof.
  assert (Z.of_nat (length (delegates
                              (epoch (fixedCtx 1 9 3 ["A"; "B"; "C"]%string))))
          < 2 ^ 63) as Hlen by reflexivity.
  destruct (rotatedProposer_in_delegates _ Hlen) as [Hnp Hin].
  split; [exact Hnp|].
  apply (Hin "B"%string 10). by vm_compute.
Defined.

(** X12 with three delegates from tip 9 on: C has its turn within three
    heights. *)
Lemma rotatedProposer_round_robin_witness :
  ∃ k, 0 ≤ k < 3
       ∧ ∀ ctx : rollDPoSCtx (Z * option error)
                   (Z * option error * list string),
           delegates (epoch ctx) = ["A"; "B"; "C"]%string →
           TipHeight (chain ctx) = (9 + k, None) →
           rotatedProposer ctx = Returns ("C"%string, 9 + k + 1, None).
Proof.
  apply (proj1 (rotatedProposer_round_robin (Chain:=Z * option error)
                  (P:=Z * option error * list string)
                  ["A"; "B"; "C"]%string 9 ltac:(by vm_compute)
                  ltac:(by vm_compute)) 2%nat "C"%string).
  reflexivity.
Defined.

Lemma fixedCtx_tip s tip n ds :
  TipHeight (chain (fixedCtx s tip n ds)) = (tip, None).
Proof. reflexivity. Qed.

Lemma fixedCtx_numDlgs s tip n ds :
  NumDelegatesPerEpoch (pool (fixedCtx s tip n ds)) = (n, None).
Proof. reflexivity. Qed.

(** X13 with 24 delegates, 2 sub-epochs and tip 100: epoch 3 starts at 97
    and holds height 101. *)
Lemma calcEpochNumAndHeight_holds_next_height_witness :
  ∃ epochNum epochHeight,
    calcEpochNumAndHeight (fixedCtx 2 100 24 [])
    = Returns (epochNum, epochHeight, None)
    ∧ 1 ≤ epochNum
    ∧ epochHeight
      = 24 * getNumSubEpochs (fixedCtx 2 100 24 []) * (epochNum - 1) + 1
    ∧ epochHeight ≤ 100 + 1
      < epochHeight + 24 * getNumSubEpochs (fixedCtx 2 100 24 []).
Proof.
  apply (calcEpochNumAndHeight_holds_next_height (fixedCtx 2 100 24 [])
           100 24 (fixedCtx_tip _ _ _ _) (fixedCtx_numDlgs _ _ _ _));
    by vm_compute.
Defined.

(** X14 one epoch of 48 heights later. *)
Lemma calcEpochNumAndHeight_advance_witness :
  ∃ e2 h2,
    calcEpochNumAndHeight (fixedCtx 2 148 24 []) = Returns (e2, h2, None)
    ∧ 3 ≤ e2 ∧ 97 ≤ h2
    ∧ (148 = 100 + 24 * getNumSubEpochs (fixedCtx 2 100 24 []) →
       e2 = 3 + 1
       ∧ h2 = 97 + 24 * getNumSubEpochs (fixedCtx 2 100 24 [])).
Proof.
  apply (calcEpochNumAndHeight_advance (fixedCtx 2 100 24 [])
           (fixedCtx 2 148 24 []) 100 148 24 3 97
           (fixedCtx_tip _ _ _ _) (fixedCtx_tip _ _ _ _)
           (fixedCtx_numDlgs _ _ _ _) (fixedCtx_numDlgs _ _ _ _));
    by vm_compute.
Defined.

(** X15 with a pool that fails and reports zero delegates. *)
Lemma calcEpochNumAndHeight_collaborator_error_witness :
  calcEpochNumAndHeight (answeringCtx (5, None) (0, Some (ErrOther 1)))
  = Returns (0, 0, Some (ErrOther 1)).
Proof.
  apply (proj1 (proj2 (calcEpochNumAndHeight_collaborator_error
                         (answeringCtx (5, None) (0, Some (ErrOther 1)))
                         5 0 (ErrOther 0) (ErrOther 1))));
    reflexivity.
Defined.

(** X16 with three delegates and 2 sub-epochs: the epoch that holds height
    101 starts at 97, and B proposes there. *)
Lemma epoch_first_proposer_witness :
  rotatedProposer (fixedCtx 2 96 3 ["A"; "B"; "C"]%string)
  = Returns ("B"%string, 97, None).
Proof.
  apply (epoch_first_proposer (fixedCtx 2 100 3 [])
           (fixedCtx 2 96 3 ["A"; "B"; "C"]%string) 100 17 97 "B"%string
           (fixedCtx_tip _ _ _ _) (fixedCtx_numDlgs _ _ _ _));
    by vm_compute.
Defined.


End rolldpos2_facts.

(** ** Package rewarding *)

Module rewarding_facts.
Import rewarding.

Section protocol_facts.
Context {SM Account : Type} `{!Env SM Account}.
Implicit Types (p : Protocol) (sm : SM) (ctx : option RunActionsCtx).

Lemma settled_inv p ctx (r : SM * option error) :
  match ctx with
  | None => settled p ctx r = Panics
  | Some raCtx =>
    ∃ sm', settled p ctx r
           = Returns (sm',
                      Some (mkReceipt [] 0 (ActionHash raCtx)
                              (IntrinsicGas raCtx) (addr p) []),
                      None)
  end.
Proof.
  unfold settled, settleAction. destruct ctx as [raCtx|]; [|done].
  destruct (DepositGas _ _ _) as [sm1 [e|]];
    destruct (increaseNonce _ _ _ _) as [sm2 [e'|]]; by eexists.
Qed.

(** X17.  Whenever [Handle] returns, the error is nil.  It returns a
    receipt exactly for the actions it has a case for (the four action
    types, with reward type block or epoch where there is one); for any
    other action it returns nil, nil, whatever the context, and leaves the
    state alone. *)
Theorem Handle_never_errors p ctx act sm :
  (∀ sm' receipt err,
     Handle p ctx act sm = Returns (sm', receipt, err) →
     err = None
     ∧ (is_Some receipt ↔ handled act)
     ∧ (receipt = None → sm' = sm))
  ∧ (¬ handled act → Handle p ctx act sm = Returns (sm, None, None)).
Proof.
  assert (∀ r : SM * option error, handled act →
            (∀ sm' receipt err,
               settled p ctx r = Returns (sm', receipt, err) →
               err = None
               ∧ (is_Some receipt ↔ handled act)
               ∧ (receipt = None → sm' = sm))
            ∧ (¬ handled act →
               settled p ctx r = Returns (sm, None, None))) as Hyes.
  { intros r Hh. split; [|done].
    pose proof (settled_inv p ctx r) as Hr.
    destruct ctx as [raCtx|]; [|by rewrite Hr].
    destruct Hr as [sm1 ->]. intros sm' receipt err [= <- <- <-].
    split_and!; [done| |done]. split; [done|by eexists]. }
  assert (¬ handled act →
          (∀ (sm' : SM) (receipt : option Receipt) (err : option error),
             Returns (sm, None, None) = Returns (sm', receipt, err) →
             err = None
             ∧ (is_Some receipt ↔ handled act)
             ∧ (receipt = None → sm' = sm))
          ∧ (¬ handled act →
             @Returns (SM * option Receipt * option error) (sm, None, None)
             = Returns (sm, None, None))) as Hno.
  { intros Hh. split; [|done].
    intros sm' receipt err [= <- <- <-]. split_and!; [done| |done].
    split; [by intros [? ?]|done]. }
  unfold Handle. destruct act as [rt amount|amount|amount|rt|]; simpl in *.
  - destruct (Z.eqb_spec rt BlockReward); [apply Hyes; by left|].
    destruct (Z.eqb_spec rt EpochReward); [apply Hyes; by right|].
    apply Hno. by intros [?|?].
  - exact (Hyes _ I).
  - exact (Hyes _ I).
  - destruct (Z.eqb_spec rt BlockReward); [apply Hyes; by left|].
    destruct (Z.eqb_spec rt EpochReward); [apply Hyes; by right|].
    apply Hno. by intros [?|?].
  - apply Hno. by intros [].
Qed.

(** X18.  Every receipt [Handle] returns has status 0, whether the
    operation, the gas deposit or the nonce update failed or not
    ([createReceipt] does not use its status argument); it names the action
    hash and the intrinsic gas of the context and the address of the
    protocol, and has no return value and no logs. *)
Theorem Handle_receipt_status_zero p ctx act sm sm' receipt err :
  Handle p ctx act sm = Returns (sm', Some receipt, err) →
  Status receipt = 0
  ∧ ReturnValue receipt = [] ∧ Logs receipt = []
  ∧ ContractAddress receipt = addr p
  ∧ ∃ raCtx, ctx = Some raCtx
             ∧ ActHash receipt = ActionHash raCtx
             ∧ GasConsumed receipt = IntrinsicGas raCtx.
Proof.
  assert (∀ r : SM * option error,
            settled p ctx r = Returns (sm', Some receipt, err) →
            Status receipt = 0
            ∧ ReturnValue receipt = [] ∧ Logs receipt = []
            ∧ ContractAddress receipt = addr p
            ∧ ∃ raCtx, ctx = Some raCtx
                       ∧ ActHash receipt = ActionHash raCtx
                       ∧ GasConsumed receipt = IntrinsicGas raCtx) as Hs.
  { intros r. pose proof (settled_inv p ctx r) as Hr.
    destruct ctx as [raCtx|]; [|by rewrite Hr].
    destruct Hr as [sm1 ->]. intros [= <- <- <-]. simpl.
    split_and!; try done. by exists raCtx. }
  unfold Handle. destruct act as [rt amount|amount|amount|rt|]; try apply Hs.
  - destruct (rt =? BlockReward); [apply Hs|].
    destruct (rt =? EpochReward); [apply Hs|]. intros [=].
  - destruct (rt =? BlockReward); [apply Hs|].
    destruct (rt =? EpochReward); [apply Hs|]. intros [=].
  - intros [=].
Qed.

(** X19.  [increaseNonce] never lowers a nonce: when it succeeds, the
    account stored under the address has the larger of the nonce it had and
    the nonce given. *)
Theorem increaseNonce_max `{!AccountLaws SM Account} p sm a nonce sm' :
  increaseNonce p sm a nonce = (sm', None) →
  ∃ sm1 acc sm2 acc',
    LoadOrCreateAccount sm a = (sm1, inl acc)
    ∧ LoadOrCreateAccount sm' a = (sm2, inl acc')
    ∧ acc_Nonce acc' = Z.max (acc_Nonce acc) nonce.
Proof.
  unfold increaseNonce.
  destruct (LoadOrCreateAccount sm a) as [sm1 [acc|e]] eqn:Hload;
    [|intros [=]].
  destruct (StoreAccount sm1 a _) as [sm2 [e|]] eqn:Hstore; [intros [=]|].
  intros [= <-].
  destruct (load_after_store _ _ _ _ Hstore) as [sm3 Hl].
  exists sm1, acc, sm3. eexists. split; [done|]. split; [exact Hl|].
  destruct (Z.ltb_spec (acc_Nonce acc) nonce).
  - rewrite Nonce_set. lia.
  - lia.
Qed.

End protocol_facts.

#[export] Instance MapLaws : AccountLaws (gmap string Z) Z.
Proof.
  split.
  - intros sm sm' a acc. unfold StoreAccount, LoadOrCreateAccount. simpl.
    destruct (decide (a = EmptyString)); [intros [=]|].
    intros [= <-]. eexists. by rewrite lookup_insert_eq.
  - done.
Qed.

(** X17 at a claim, which fails on the map state manager: still no error;
    and at a reward of a type that is neither block nor epoch. *)
Lemma Handle_never_errors_witness :
  Handle protocol0 (Some raCtx0) (ClaimFromRewardingFund 5) ∅
  = Returns ({["alice"%string := 7]},
             Some (mkReceipt [] 0 [] 10000 "io1rewarding" []), None)
  ∧ handled (SM:=gmap string Z) (ClaimFromRewardingFund 5)
  ∧ Handle protocol0 None (GrantReward 2) (∅ : gmap string Z)
    = Returns (∅, None, None).
Proof.
  assert (Handle protocol0 (Some raCtx0) (ClaimFromRewardingFund 5) ∅
          = Returns ({["alice"%string := 7]},
                     Some (mkReceipt [] 0 [] 10000 "io1rewarding" []), None))
    as Hrun by (by vm_compute).
  split; [exact Hrun|]. split.
  - destruct (proj1 (Handle_never_errors protocol0 (Some raCtx0)
                       (ClaimFromRewardingFund 5) ∅) _ _ _ Hrun)
      as (_ & Hiff & _).
    apply Hiff. by eexists.
  - apply (proj2 (Handle_never_errors protocol0 None (GrantReward 2)
                    (∅ : gmap string Z))).
    by intros [[=]|[=]].
Defined.

(** X18 at the same call. *)
Lemma Handle_receipt_status_zero_witness :
  Claim (Some raCtx0) (∅ : gmap string Z) 5 = (∅, Some (mkError 2))
  ∧ Handle protocol0 (Some raCtx0) (ClaimFromRewardingFund 5) ∅
    = Returns ({["alice"%string := 7]},
               Some (mkReceipt [] 0 [] 10000 "io1rewarding" []), None)
  ∧ Status (mkReceipt [] 0 [] 10000 "io1rewarding" []) = 0.
Proof.
  assert (Handle protocol0 (Some raCtx0) (ClaimFromRewardingFund 5) ∅
          = Returns ({["alice"%string := 7]},
                     Some (mkReceipt [] 0 [] 10000 "io1rewarding" []), None))
    as Hrun by (by vm_compute).
  split; [reflexivity|]. split; [exact Hrun|].
  exact (proj1 (Handle_receipt_status_zero _ _ _ _ _ _ _ Hrun)).
Defined.

(** X19 on the map state manager: a lower nonce leaves 7 in place. *)
Lemma increaseNonce_max_witness :
  ∃ sm1 acc sm2 acc',
    LoadOrCreateAccount ({["alice"%string := 7]} : gmap string Z) "alice"
    = (sm1, inl acc)
    ∧ LoadOrCreateAccount ({["alice"%string := 7]} : gmap string Z) "alice"
      = (sm2, inl acc')
    ∧ acc_Nonce acc' = Z.max (acc_Nonce acc) 3.
Proof.
  apply (increaseNonce_max protocol0 {["alice"%string := 7]} "alice"%string 3
           {["alice"%string := 7]}).
  by vm_compute.
Defined.

End rewarding_facts.
